(** * Dot-to-bracket rewriters: [fix-process-env.py] and [fix-ts4111.py]

    A shallow embedding of the two scripts and of the part of Python's
    [re] and [pathlib] they rely on, followed by the properties of the
    rewrite rules and of the file driver. *)

From Stdlib Require Import List String Ascii NArith Bool Arith Lia Permutation.
Import ListNotations.

(** ** Text

    A Python [str] is a sequence of Unicode code points. *)

Definition char := N.
Definition str := list char.

Definition ch (a : ascii) : char := N_of_ascii a.
Arguments ch a%_char : simpl never.

Definition py (s : string) : str := map N_of_ascii (list_ascii_of_string s).

(** [s.startswith(p)], returning what follows the prefix. *)
Fixpoint strip (p s : str) : option str :=
  match p with
  | [] => Some s
  | a :: p' =>
      match s with
      | [] => None
      | x :: s' => if N.eqb x a then strip p' s' else None
      end
  end.

(** ** The fragment of [re] used by the scripts *)

Module Re.

(** Members of a character set, as [sre_parse] lists them. *)
Inductive set_item :=
| RANGE (lo hi : char)
| MEMBER (c : char).

(** Pattern opcodes.  A capture group [( ... )] number [g] is the pair
    [MARK (2g-2)] ... [MARK (2g-1)] around its body, as [sre_compile]
    emits it; [MAX_REPEAT_IN] is a greedy [*] over a character set and
    [ASSERT_NOT_LITERAL c] is the lookahead [(?!c)]. *)
Inductive op :=
| LITERAL (c : char)
| IN (items : list set_item)
| MAX_REPEAT_IN (items : list set_item)
| MARK (i : nat)
| AT_BOUNDARY
| ASSERT_NOT_LITERAL (c : char)
| FAILURE.

Definition pattern := list op.

(** *** Parsing a pattern string *)

Definition is_alnum_ascii (a : ascii) : bool :=
  let n := nat_of_ascii a in
  ((48 <=? n) && (n <=? 57)) || ((65 <=? n) && (n <=? 90))
  || ((97 <=? n) && (n <=? 122)).

(** Characters that have a meaning of their own outside a set. *)
Definition is_special (a : ascii) : bool :=
  existsb (Ascii.eqb a)
    ["."; "^"; "$"; "*"; "+"; "?"; "{"; "}"; "|"; "["; "("; ")"; "\"]%char.

(** The parser is a single left-to-right pass.  Outside a set it is in
    mode [Top]; between [[] and []] it collects the members read so far. *)
Inductive mode :=
| Top
| InSet (items : list set_item).

(** [parse s m ng opened acc]: [ng] is the number of the next capture
    group, [opened] the groups still open (innermost first) and [acc]
    the opcodes emitted so far, last first.  [None] means the pattern
    uses syntax outside the fragment (or is malformed). *)
Fixpoint parse (s : list ascii) (m : mode) (ng : nat) (opened : list nat)
    (acc : pattern) {struct s} : option pattern :=
  match s with
  | [] =>
      match m, opened with
      | Top, [] => Some (rev acc)
      | _, _ => None
      end
  | a :: rest =>
      match m with
      | InSet items =>
          if Ascii.eqb a "]" then
            match items, rest with
            | [], _ => None
            | _, b :: rest' =>
                if Ascii.eqb b "*"
                then parse rest' Top ng opened (MAX_REPEAT_IN (rev items) :: acc)
                else parse rest Top ng opened (IN (rev items) :: acc)
            | _, [] => parse rest Top ng opened (IN (rev items) :: acc)
            end
          else if Ascii.eqb a "\" || Ascii.eqb a "^" || Ascii.eqb a "[" then None
          else
            match rest with
            | b :: c :: rest' =>
                if Ascii.eqb b "-" && negb (Ascii.eqb c "]")
                then parse rest' (InSet (RANGE (N_of_ascii a) (N_of_ascii c) :: items))
                       ng opened acc
                else parse rest (InSet (MEMBER (N_of_ascii a) :: items)) ng opened acc
            | _ => parse rest (InSet (MEMBER (N_of_ascii a) :: items)) ng opened acc
            end
      | Top =>
          if Ascii.eqb a "\" then
            match rest with
            | b :: rest' =>
                if Ascii.eqb b "b" then parse rest' Top ng opened (AT_BOUNDARY :: acc)
                else if is_alnum_ascii b then None
                else parse rest' Top ng opened (LITERAL (N_of_ascii b) :: acc)
            | [] => None
            end
          else if Ascii.eqb a "[" then parse rest (InSet []) ng opened acc
          else if Ascii.eqb a "(" then
            match rest with
            | q :: rest1 =>
                if Ascii.eqb q "?" then
                  match rest1 with
                  | e :: x :: y :: rest2 =>
                      if negb (Ascii.eqb e "!") then None
                      else if Ascii.eqb x "\" then
                        match rest2 with
                        | z :: rest3 =>
                            if negb (is_alnum_ascii y) && Ascii.eqb z ")"
                            then parse rest3 Top ng opened
                                   (ASSERT_NOT_LITERAL (N_of_ascii y) :: acc)
                            else None
                        | [] => None
                        end
                      else if negb (is_special x) && Ascii.eqb y ")"
                      then parse rest2 Top ng opened
                             (ASSERT_NOT_LITERAL (N_of_ascii x) :: acc)
                      else None
                  | _ => None
                  end
                else parse rest Top (S ng) (ng :: opened) (MARK (2 * (ng - 1)) :: acc)
            | [] => None
            end
          else if Ascii.eqb a ")" then
            match opened with
            | g :: opened' => parse rest Top ng opened' (MARK (2 * (g - 1) + 1) :: acc)
            | [] => None
            end
          else if is_special a then None
          else parse rest Top ng opened (LITERAL (N_of_ascii a) :: acc)
      end
  end.

Definition compile (p : string) : option pattern :=
  parse (list_ascii_of_string p) Top 1 [] [].

(** A pattern literal of the scripts.  A string outside the fragment
    yields the pattern that never matches. *)
Definition rx (p : string) : pattern :=
  match compile p with
  | Some ops => ops
  | None => [FAILURE]
  end.

(** *** Matching *)

Definition in_item (c : char) (it : set_item) : bool :=
  match it with
  | RANGE lo hi => N.leb lo c && N.leb c hi
  | MEMBER x => N.eqb c x
  end.

Definition in_set (items : list set_item) (c : char) : bool :=
  existsb (in_item c) items.

(** ASCII letters, digits and the underscore. *)
Definition ascii_word (c : char) : bool :=
  in_set [RANGE (ch "a") (ch "z"); RANGE (ch "A") (ch "Z");
          RANGE (ch "0") (ch "9"); MEMBER (ch "_")] c.

(** What a successful match leaves behind: the text the match started
    at, the number of characters matched and the marks that were set
    (mark number, offset from the start of the match), latest first. *)
Record match_obj := {
  m_string : str;
  m_end : nat;
  m_marks : list (nat * nat)
}.

Fixpoint mark (marks : list (nat * nat)) (i : nat) : option nat :=
  match marks with
  | [] => None
  | (j, pos) :: rest => if Nat.eqb j i then Some pos else mark rest i
  end.

(** [m.group(g)]; [None] for a group that did not take part. *)
Definition group (m : match_obj) (g : nat) : option str :=
  match g with
  | O => Some (firstn (m_end m) (m_string m))
  | S g' =>
      match mark (m_marks m) (2 * g'), mark (m_marks m) (2 * g' + 1) with
      | Some a, Some b => Some (firstn (b - a) (skipn a (m_string m)))
      | _, _ => None
      end
  end.

(** The second argument of [re.sub]: a template string or a function
    of the match object. *)
Inductive repl :=
| Template (t : str)
| Callable (f : match_obj -> str).

Definition is_digit (c : char) : bool := N.leb (ch "0") c && N.leb c (ch "9").

(** Template expansion.  A backslash followed by one of the digits 1-9
    (and no further digit) is a reference to that group, which expands to
    the empty string if the group did not take part; every other
    character stands for itself.  The other escapes of [re] templates do
    not occur in the scripts. *)
Fixpoint expand_template (t : str) (m : match_obj) : str :=
  match t with
  | [] => []
  | c :: rest =>
      match rest with
      | d :: rest' =>
          if N.eqb c (ch "\") && is_digit d && negb (N.eqb d (ch "0"))
             && negb (match rest' with e :: _ => is_digit e | [] => false end)
          then match group m (N.to_nat (d - ch "0")) with
               | Some g => g
               | None => []
               end ++ expand_template rest' m
          else c :: expand_template rest m
      | [] => [c]
      end
  end.

Definition expand (r : repl) (m : match_obj) : str :=
  match r with
  | Template t => expand_template t m
  | Callable f => f m
  end.

Section Matching.

(** [str.isalnum] on the code points above ASCII: the Unicode character
    database is not part of the scripts, so the classification of
    non-ASCII characters is a parameter. *)
Variable unicode_alnum : char -> bool.

(** The class [\w] of a [str] pattern. *)
Definition is_word (c : char) : bool :=
  if N.ltb c 128 then ascii_word c else unicode_alnum c.

Definition word_at (c : option char) : bool :=
  match c with
  | Some x => is_word x
  | None => false
  end.

(** [run p prev s pos marks] matches the opcodes [p] against the text [s],
    which is preceded by the character [prev] (none at the start of the
    string); [pos] characters of the match are already consumed.  The
    result is the length of the match and its marks.  A greedy repeat
    first tries to take one more character and gives it back if the rest
    of the pattern then fails. *)
Fixpoint run (p : pattern) (prev : option char) (s : str) (pos : nat)
    (marks : list (nat * nat)) {struct p} : option (nat * list (nat * nat)) :=
  match p with
  | [] => Some (pos, marks)
  | LITERAL c :: p' =>
      match s with
      | x :: t => if N.eqb x c then run p' (Some x) t (S pos) marks else None
      | [] => None
      end
  | IN items :: p' =>
      match s with
      | x :: t => if in_set items x then run p' (Some x) t (S pos) marks else None
      | [] => None
      end
  | MAX_REPEAT_IN items :: p' =>
      (fix rep (prev : option char) (s : str) (pos : nat) {struct s} :=
         match s with
         | x :: t =>
             if in_set items x then
               match rep (Some x) t (S pos) with
               | Some r => Some r
               | None => run p' prev s pos marks
               end
             else run p' prev s pos marks
         | [] => run p' prev s pos marks
         end) prev s pos
  | MARK i :: p' => run p' prev s pos ((i, pos) :: marks)
  | AT_BOUNDARY :: p' =>
      if xorb (word_at prev) (word_at (hd_error s))
      then run p' prev s pos marks
      else None
  | ASSERT_NOT_LITERAL c :: p' =>
      match s with
      | x :: _ => if N.eqb x c then None else run p' prev s pos marks
      | [] => run p' prev s pos marks
      end
  | FAILURE :: _ => None
  end.

(** One attempt of the scanner at the current position. *)
Definition match_here (p : pattern) (prev : option char) (s : str)
  : option match_obj :=
  match run p prev s 0 [] with
  | Some (n, marks) => Some {| m_string := s; m_end := n; m_marks := marks |}
  | None => None
  end.

(** The scanner of [re.sub].  It walks the text from left to right;
    [skip] is the number of characters still covered by the last match.
    At a position where the pattern matches, the replacement is emitted
    and the matched characters are dropped; elsewhere the character is
    copied.  The fragment has no lazy quantifier and no alternation, so
    when the first match found at a position is empty there is no longer
    one at that position: the replacement is emitted, the character is
    copied and the scan moves on, as [sre] does. *)
Fixpoint sub_scan (p : pattern) (r : repl) (prev : option char) (skip : nat)
    (s : str) {struct s} : str :=
  match s with
  | [] =>
      match skip with
      | O =>
          match match_here p prev [] with
          | Some m => expand r m
          | None => []
          end
      | S _ => []
      end
  | c :: t =>
      match skip with
      | S k => sub_scan p r (Some c) k t
      | O =>
          match match_here p prev s with
          | Some m =>
              match m_end m with
              | S n => expand r m ++ sub_scan p r (Some c) n t
              | O => expand r m ++ c :: sub_scan p r (Some c) 0 t
              end
          | None => c :: sub_scan p r (Some c) 0 t
          end
      end
  end.

(** [re.sub(pattern, repl, string)] *)
Definition sub (p : pattern) (r : repl) (s : str) : str :=
  sub_scan p r None 0 s.

(** [re.search(pattern, string) is not None], scanning from a position
    preceded by [prev]. *)
Fixpoint search_from (p : pattern) (prev : option char) (s : str) : bool :=
  match match_here p prev s with
  | Some _ => true
  | None =>
      match s with
      | [] => false
      | c :: t => search_from p (Some c) t
      end
  end.

Definition search (p : pattern) (s : str) : bool := search_from p None s.

End Matching.

End Re.

(** ** The rewrite rules of the two scripts *)

(** An f-string field [{x}]: a string is inserted as it is, [None] prints
    as its name. *)
Definition fmt (x : option str) : str :=
  match x with
  | Some v => v
  | None => py "None"
  end.

(** *** [fix-process-env.py] *)

Module FixProcessEnv.
Import Re.

Definition replace_match (m : match_obj) : str :=
  let prop_name := group m 1 in
  py "process.env['" ++ fmt prop_name ++ py "']".

Definition fix_process_env (unicode_alnum : char -> bool) (content : str) : str :=
  let pattern := rx "process\.env\.([A-Z_][A-Z0-9_]*)" in
  sub unicode_alnum pattern (Callable replace_match) content.

(** The whole transformation [main] applies to the text of a file. *)
Definition transform (unicode_alnum : char -> bool) (content : str) : str :=
  fix_process_env unicode_alnum content.

End FixProcessEnv.

(** *** [fix-ts4111.py] *)

Module FixTs4111.
Import Re.

Definition fix_process_env (unicode_alnum : char -> bool) (content : str) : str :=
  let pattern := rx "process\.env\.([A-Z_][A-Z0-9_]*)" in
  let replacement := Template (py "process.env['\1']") in
  sub unicode_alnum pattern replacement content.

Definition fix_object_property_access (unicode_alnum : char -> bool)
    (content : str) (patterns : list (pattern * repl)) : str :=
  fold_left
    (fun content rule => sub unicode_alnum (fst rule) (snd rule) content)
    patterns content.

Definition patterns : list (pattern * repl) := [
  (* Translation keys *)
  (rx "\.new\b(?!\()", Template (py "['new']"));
  (rx "\.read\b(?!\()", Template (py "['read']"));
  (rx "\.replied\b(?!\()", Template (py "['replied']"));
  (rx "\.archived\b(?!\()", Template (py "['archived']"));
  (* Metadata properties *)
  (rx "\.title\b(?!\()", Template (py "['title']"));
  (rx "\.description\b(?!\()", Template (py "['description']"));
  (rx "\.url\b(?!\()", Template (py "['url']"));
  (rx "\.alt\b(?!\()", Template (py "['alt']"));
  (rx "\.keywords\b(?!\()", Template (py "['keywords']"));
  (* User/auth properties *)
  (rx "\.isAdmin\b(?!\()", Template (py "['isAdmin']"));
  (rx "\.email\b(?!\()", Template (py "['email']"));
  (rx "\.password\b(?!\()", Template (py "['password']"));
  (rx "\.confirmPassword\b(?!\()", Template (py "['confirmPassword']"));
  (rx "\.name\b(?!\()", Template (py "['name']"));
  (rx "\.phone\b(?!\()", Template (py "['phone']"));
  (rx "\.locale\b(?!\()", Template (py "['locale']"));
  (* Order properties *)
  (rx "\.orderNumber\b(?!\()", Template (py "['orderNumber']"));
  (rx "\.firstName\b(?!\()", Template (py "['firstName']"));
  (rx "\.lastName\b(?!\()", Template (py "['lastName']"));
  (rx "\.itemCount\b(?!\()", Template (py "['itemCount']"));
  (rx "\.method\b(?!\()", Template (py "['method']"));
  (rx "\.status\b(?!\()", Template (py "['status']"));
  (rx "\.address\b(?!\()", Template (py "['address']"));
  (rx "\.preferredDate\b(?!\()", Template (py "['preferredDate']"));
  (* Product/customization properties *)
  (rx "\.productId\b(?!\()", Template (py "['productId']"));
  (rx "\.orderId\b(?!\()", Template (py "['orderId']"));
  (rx "\.customerEmail\b(?!\()", Template (py "['customerEmail']"));
  (rx "\.options\b(?!\()", Template (py "['options']"));
  (rx "\.items\b(?!\()", Template (py "['items']"));
  (rx "\.choices\b(?!\()", Template (py "['choices']"));
  (* Form field names *)
  (rx "\.name_cs\b(?!\()", Template (py "['name_cs']"));
  (rx "\.name_en\b(?!\()", Template (py "['name_en']"));
  (rx "\.slug\b(?!\()", Template (py "['slug']"));
  (rx "\.base_price\b(?!\()", Template (py "['base_price']"));
  (rx "\.category_id\b(?!\()", Template (py "['category_id']"));
  (rx "\.stock_quantity\b(?!\()", Template (py "['stock_quantity']"));
  (rx "\.low_stock_threshold\b(?!\()", Template (py "['low_stock_threshold']"));
  (* Fallback properties *)
  (rx "\.fallbackApplied\b(?!\()", Template (py "['fallbackApplied']"));
  (rx "\.svgFallbackApplied\b(?!\()", Template (py "['svgFallbackApplied']"));
  (rx "\.fallbackValue\b(?!\()", Template (py "['fallbackValue']"));
  (rx "\.recoveryFailed\b(?!\()", Template (py "['recoveryFailed']"));
  (* Query params *)
  (rx "\.q\b(?!\()", Template (py "['q']"));
  (rx "\.category\b(?!\()", Template (py "['category']"));
  (rx "\.sort\b(?!\()", Template (py "['sort']"));
  (rx "\.page\b(?!\()", Template (py "['page']"));
  (* Error types *)
  (rx "\.unknown\b(?!\()", Template (py "['unknown']"))
].

(** The whole transformation [main] applies to the text of a file. *)
Definition transform (unicode_alnum : char -> bool) (content : str) : str :=
  let content := fix_process_env unicode_alnum content in
  fix_object_property_access unicode_alnum content patterns.

End FixTs4111.

(** ** Files and the driver *)

(** A path is the list of its components, relative to the working
    directory; an exception is kept as the text it prints. *)
Definition path := list string.
Definition exn := string.

(** What the scripts ask of the file system, through [pathlib]:
    [Path(root).rglob(pattern)], [Path.read_text] and [Path.write_text].
    Reading and writing either succeed or raise. *)
Class FS (world : Type) := {
  rglob : world -> path -> string -> list path;
  read_text : world -> path -> exn + str;
  write_text : world -> path -> str -> world * option exn
}.

Inductive stream := Stdout | Stderr.

(** The lines the scripts print. *)
Inductive message :=
| Fixed (file_path : path)
| ErrorProcessing (file_path : path) (e : exn)
| FixedFiles (fixed_count : nat).

(** The file system and the console.  [print] either writes its line to
    the stream or raises: a stream may be closed, and the standard output
    raises [UnicodeEncodeError] on a path it cannot encode. *)
Class OS (world : Type) := {
  os_fs :: FS world;
  print_line : world -> stream -> message -> world * option exn
}.

(** What a run does to its environment, in order: the files it reads,
    the files it writes, and the lines it has printed. *)
Inductive event :=
| EvRead (file_path : path)
| EvWrite (file_path : path) (content : str)
| EvPrint (to : stream) (msg : message).

Fixpoint str_eqb (a b : str) : bool :=
  match a, b with
  | [], [] => true
  | x :: a', y :: b' => N.eqb x y && str_eqb a' b'
  | _, _ => false
  end.

(** The state of a run: the environment, the counter, the log, and the
    exception that has left the loop or [main], if any. *)
Record state (world : Type) := {
  st_world : world;
  fixed_count : nat;
  events : list event;
  raised : option exn
}.
Arguments Build_state {world} _ _ _ _.
Arguments st_world {world} _.
Arguments fixed_count {world} _.
Arguments events {world} _.
Arguments raised {world} _.

Definition src_path : path := ["src"%string].
Definition scripts_path : path := ["scripts"%string].

(** The candidates: the first lines of [main], which ask the file system
    only. *)
Definition ts_files {world : Type} {fs : FS world} (w : world) : list path :=
  let ts_files := rglob w src_path "*.ts" ++ rglob w src_path "*.tsx" in
  let ts_files := ts_files ++ rglob w scripts_path "*.ts" in
  ts_files ++ [["next.config.ts"%string]].

(** The two [main] functions are the same code up to the transformation
    applied to the text and the stream of the error lines. *)
Section Driver.

Context {world : Type} {os : OS world}.
Variable transform : str -> str.
Variable err_stream : stream.

Definition emit (st : state world) (e : event) : state world :=
  {| st_world := st_world st;
     fixed_count := fixed_count st;
     events := events st ++ [e];
     raised := raised st |}.

(** [print(msg, file=to)]: the line is in the log when [print] returns;
    otherwise the exception is handed to the caller. *)
Definition print (st : state world) (to : stream) (msg : message)
  : state world * option exn :=
  match print_line (st_world st) to msg with
  | (w, None) =>
      ({| st_world := w;
          fixed_count := fixed_count st;
          events := events st ++ [EvPrint to msg];
          raised := raised st |}, None)
  | (w, Some e) =>
      ({| st_world := w;
          fixed_count := fixed_count st;
          events := events st;
          raised := raised st |}, Some e)
  end.

(** An exception that nothing catches. *)
Definition uncaught (r : state world * option exn) : state world :=
  match r with
  | (st, None) => st
  | (st, Some e) =>
      {| st_world := st_world st;
         fixed_count := fixed_count st;
         events := events st;
         raised := Some e |}
  end.

(** The [try] block of the loop, with the exception it raises, if any.
    The counter is incremented between [write_text] and the [print] of
    the [Fixed] line. *)
Definition try_block (st : state world) (file_path : path)
  : state world * option exn :=
  let st := emit st (EvRead file_path) in
  match read_text (st_world st) file_path with
  | inl e => (st, Some e)
  | inr content =>
      let original_content := content in
      let content := transform content in
      if negb (str_eqb content original_content) then
        let st := emit st (EvWrite file_path content) in
        match write_text (st_world st) file_path content with
        | (w, Some e) =>
            ({| st_world := w;
                fixed_count := fixed_count st;
                events := events st;
                raised := raised st |}, Some e)
        | (w, None) =>
            let st := {| st_world := w;
                         fixed_count := fixed_count st + 1;
                         events := events st;
                         raised := raised st |} in
            print st Stdout (Fixed file_path)
        end
      else (st, None)
  end.

(** The body of the loop: the [try] block and its handler,
    [except Exception as e].  Nothing guards the [print] of the handler:
    what it raises leaves the loop. *)
Definition process_file (st : state world) (file_path : path) : state world :=
  match try_block st file_path with
  | (st, None) => st
  | (st, Some e) =>
      uncaught (print st err_stream (ErrorProcessing file_path e))
  end.

(** The loop; it ends with the list, or with an exception. *)
Fixpoint run_files (files : list path) (st : state world) : state world :=
  match files with
  | [] => st
  | file_path :: files' =>
      match raised st with
      | None => run_files files' (process_file st file_path)
      | Some _ => st
      end
  end.

Definition main (w : world) : state world :=
  let st := {| st_world := w; fixed_count := 0; events := [];
               raised := None |} in
  let st := run_files (ts_files w) st in
  match raised st with
  | None => uncaught (print st Stdout (FixedFiles (fixed_count st)))
  | Some _ => st
  end.

End Driver.

Module FixProcessEnvMain.

Definition main {world : Type} {os : OS world} (unicode_alnum : char -> bool)
  : world -> state world :=
  main (FixProcessEnv.transform unicode_alnum) Stdout.

End FixProcessEnvMain.

Module FixTs4111Main.

Definition main {world : Type} {os : OS world} (unicode_alnum : char -> bool)
  : world -> state world :=
  main (FixTs4111.transform unicode_alnum) Stderr.

End FixTs4111Main.

(** The file an event reads or writes. *)
Definition touched (e : event) : option path :=
  match e with
  | EvRead p => Some p
  | EvWrite p _ => Some p
  | EvPrint _ _ => None
  end.

(** Processing [file_path] from state [st] raises [e]: either reading
    raises, or the text is read, differs from its transform and writing
    raises.  [w] is the world the failure leaves and [evs] the reads and
    writes attempted. *)
Inductive raises {world : Type} {os : OS world} (transform : str -> str)
    (st : state world) (file_path : path)
  : exn -> world -> list event -> Prop :=
| read_raises (e : exn) :
    read_text (st_world st) file_path = inl e ->
    raises transform st file_path e (st_world st) [EvRead file_path]
| write_raises (content : str) (e : exn) (w : world) :
    read_text (st_world st) file_path = inr content ->
    transform content <> content ->
    write_text (st_world st) file_path (transform content) = (w, Some e) ->
    raises transform st file_path e w
      [EvRead file_path; EvWrite file_path (transform content)].

(** ** A directory tree

    An in-memory file system: the instance of [FS] the examples run on.
    A file holds what reading it yields (its text, or the exception
    raised when it cannot be opened or decoded) and, if it cannot be
    written, the exception a write raises.  Directory permissions and
    links are not modelled. *)

#[warnings="-register-all"]
Inductive node :=
| File (text : exn + str) (readonly : option exn)
| Dir (entries : list (string * node)).

Fixpoint find_entry (name : string) (entries : list (string * node))
  : option node :=
  match entries with
  | [] => None
  | (k, n) :: rest => if String.eqb k name then Some n else find_entry name rest
  end.

Fixpoint lookup (n : node) (p : path) : option node :=
  match p with
  | [] => Some n
  | name :: p' =>
      match n with
      | Dir entries =>
          match find_entry name entries with
          | Some child => lookup child p'
          | None => None
          end
      | File _ _ => None
      end
  end.

(** [n'] is found under [n] by following the names of [p]. *)
Inductive entry_at : node -> path -> node -> Prop :=
| at_here (n : node) : entry_at n [] n
| at_child (entries : list (string * node)) (name : string) (child : node)
    (p : path) (n' : node) :
    In (name, child) entries -> entry_at child p n' ->
    entry_at (Dir entries) (name :: p) n'.

(** Shell-style matching of a name against a pattern with [*] and [?];
    bracket classes are not interpreted. *)
Fixpoint fnmatch_list (pat name : list ascii) : bool :=
  match pat with
  | [] => match name with [] => true | _ :: _ => false end
  | a :: pat' =>
      if Ascii.eqb a "*" then
        (fix star (name : list ascii) : bool :=
           fnmatch_list pat' name
           || match name with
              | [] => false
              | _ :: name' => star name'
              end) name
      else
        match name with
        | [] => false
        | b :: name' =>
            (Ascii.eqb a "?" || Ascii.eqb a b) && fnmatch_list pat' name'
        end
  end.

Definition wildcard_free (pat : list ascii) : bool :=
  forallb (fun a => negb (Ascii.eqb a "*" || Ascii.eqb a "?")) pat.

Definition fnmatch (pat name : string) : bool :=
  fnmatch_list (list_ascii_of_string pat) (list_ascii_of_string name).

(** The recursive walk of [rglob]: the matching entries of a directory,
    then those of its subdirectories in turn. *)
Fixpoint walk (pat : string) (here : path) (n : node) : list path :=
  match n with
  | File _ _ => []
  | Dir entries =>
      map (fun e => here ++ [fst e])
          (filter (fun e => fnmatch pat (fst e)) entries)
      ++ flat_map (fun e => walk pat (here ++ [fst e]) (snd e)) entries
  end.

Definition tree_rglob (w : node) (root : path) (pat : string) : list path :=
  match lookup w root with
  | Some n => walk pat root n
  | None => []
  end.

Definition tree_read_text (w : node) (p : path) : exn + str :=
  match lookup w p with
  | Some (File text _) => text
  | Some (Dir _) => inl "Is a directory"%string
  | None => inl "No such file or directory"%string
  end.

(** Replace the first entry called [name] by what [f] makes of it. *)
Fixpoint update_entry (name : string) (f : node -> exn + node)
    (entries : list (string * node)) : option (exn + list (string * node)) :=
  match entries with
  | [] => None
  | (k, n) :: rest =>
      if String.eqb k name then
        Some match f n with
             | inl e => inl e
             | inr n' => inr ((k, n') :: rest)
             end
      else
        match update_entry name f rest with
        | Some (inr rest') => Some (inr ((k, n) :: rest'))
        | other => other
        end
  end.

Fixpoint write_node (p : path) (content : str) (n : node) {struct p}
  : exn + node :=
  match p with
  | [] =>
      match n with
      | File _ None => inr (File (inr content) None)
      | File _ (Some e) => inl e
      | Dir _ => inl "Is a directory"%string
      end
  | name :: p' =>
      match n with
      | File _ _ => inl "Not a directory"%string
      | Dir entries =>
          match update_entry name (write_node p' content) entries with
          | Some (inr entries') => inr (Dir entries')
          | Some (inl e) => inl e
          | None =>
              match p' with
              | [] => inr (Dir (entries ++ [(name, File (inr content) None)]))
              | _ :: _ => inl "No such file or directory"%string
              end
          end
      end
  end.

Definition tree_write_text (w : node) (p : path) (content : str)
  : node * option exn :=
  match write_node p content w with
  | inr w' => (w', None)
  | inl e => (w, Some e)
  end.

#[export] Instance tree_fs : FS node := {
  rglob := tree_rglob;
  read_text := tree_read_text;
  write_text := tree_write_text
}.

(** A directory tree with a console: for each stream and line, the
    exception that printing the line raises, if any. *)
Record machine := {
  disk : node;
  console : stream -> message -> option exn
}.

Definition machine_fs : FS machine := {|
  rglob := fun m => tree_rglob (disk m);
  read_text := fun m => tree_read_text (disk m);
  write_text := fun m p content =>
    match write_node p content (disk m) with
    | inr t => ({| disk := t; console := console m |}, None)
    | inl e => (m, Some e)
    end
|}.

#[export] Instance machine_os : OS machine := {
  os_fs := machine_fs;
  print_line m to msg := (m, console m to msg)
}.

(** The console of an interpreter whose standard output encodes ASCII
    strictly while its error stream escapes what it cannot encode:
    printing a path with a byte outside ASCII on the standard output
    raises. *)
Definition ascii_name (name : string) : bool :=
  forallb (fun a => match a with Ascii _ _ _ _ _ _ _ b7 => negb b7 end)
    (list_ascii_of_string name).

Definition encodable (msg : message) : bool :=
  match msg with
  | Fixed file_path => forallb ascii_name file_path
  | ErrorProcessing file_path _ => forallb ascii_name file_path
  | FixedFiles _ => true
  end.

Definition strict_stdout : stream -> message -> option exn :=
  fun to msg =>
    match to with
    | Stdout =>
        if encodable msg then None else Some "UnicodeEncodeError"%string
    | Stderr => None
    end.

(** ** Rules as rewriting steps

    The view of a rule the proofs work with.  At a position of the text
    a step either does nothing or replaces the next [n+1] characters by
    a string. *)

Definition step := str -> option (nat * str).

Fixpoint rewrite_from (m : step) (skip : nat) (s : str) : str :=
  match s with
  | [] => []
  | c :: t =>
      match skip with
      | S k => rewrite_from m k t
      | O =>
          match m s with
          | Some (n, r) => r ++ rewrite_from m n t
          | None => c :: rewrite_from m 0 t
          end
      end
  end.

Definition rewrite (m : step) (s : str) : str := rewrite_from m 0 s.

(** The step a pattern and its replacement perform at the start of a
    text. *)
Definition step_of (unicode_alnum : char -> bool) (p : Re.pattern)
    (r : Re.repl) : step :=
  fun s =>
    match Re.match_here unicode_alnum p None s with
    | Some m =>
        match Re.m_end m with
        | S n => Some (n, Re.expand r m)
        | O => None
        end
    | None => None
    end.

(** The character before the current position once the literal text
    [lit] has been matched. *)
Definition last_char (lit : str) (prev : option char) : option char :=
  fold_left (fun _ x => Some x) lit prev.

(** A pattern that begins with a literal character: it cannot match
    the empty string and does not look at what precedes the match. *)
Definition anchored (p : Re.pattern) : bool :=
  match p with
  | Re.LITERAL _ :: _ => true
  | _ => false
  end.

Definition fires (m : step) (s : str) : bool :=
  match m s with
  | Some _ => true
  | None => false
  end.

(** [q] holds at some position of [s]. *)
Fixpoint occurs (q : str -> bool) (s : str) : bool :=
  q s || match s with
         | [] => false
         | _ :: t => occurs q t
         end.

(** The opcodes of the pattern of a property name: a dot, the name, a
    word boundary, no opening parenthesis ahead. *)
Definition prop_pattern (name : str) : Re.pattern :=
  Re.LITERAL (ch ".") :: map Re.LITERAL name
  ++ [Re.AT_BOUNDARY; Re.ASSERT_NOT_LITERAL (ch "(")].

Definition prop_replacement (name : str) : str := py "['" ++ name ++ py "']".

Definition prop_rule (name : string) : Re.pattern * Re.repl :=
  (prop_pattern (py name), Re.Template (prop_replacement (py name))).

(** The identifiers the rules of [fix-ts4111.py] target, in rule order. *)
Definition targets : list string := map (fun r =>
  string_of_list_ascii
    (map ascii_of_N
       (match fst r with
        | _ :: ops =>
            flat_map (fun o => match o with Re.LITERAL c => [c] | _ => [] end) ops
        | [] => []
        end))) FixTs4111.patterns.

(** What may follow a property name for the rule to apply: not a word
    character and not an opening parenthesis. *)
Definition after_name (unicode_alnum : char -> bool) (rest : str) : bool :=
  match rest with
  | [] => true
  | x :: _ => negb (Re.is_word unicode_alnum x) && negb (N.eqb x (ch "("))
  end.

Definition prop_step (unicode_alnum : char -> bool) (name : str) : step :=
  fun s =>
    match strip (ch "." :: name) s with
    | Some rest =>
        if after_name unicode_alnum rest
        then Some (List.length name, prop_replacement name)
        else None
    | None => None
    end.

(** A property name the analysis covers: not empty, made of ASCII word
    characters. *)
Definition good_name (name : str) : bool :=
  match name with
  | [] => false
  | _ :: _ => forallb Re.ascii_word name
  end.

(** [[A-Z_]] and [[A-Z0-9_]]. *)
Definition env_first : list Re.set_item :=
  [Re.RANGE (ch "A") (ch "Z"); Re.MEMBER (ch "_")].
Definition env_more : list Re.set_item :=
  [Re.RANGE (ch "A") (ch "Z"); Re.RANGE (ch "0") (ch "9"); Re.MEMBER (ch "_")].

(** The opcodes of the pattern of [fix_process_env]. *)
Definition env_pattern : Re.pattern :=
  map Re.LITERAL (py "process.env.")
  ++ [Re.MARK 0; Re.IN env_first; Re.MAX_REPEAT_IN env_more; Re.MARK 1].

(** Length of the longest prefix made of members of a set. *)
Fixpoint span (items : list Re.set_item) (s : str) : nat :=
  match s with
  | x :: t => if Re.in_set items x then S (span items t) else 0
  | [] => 0
  end.

Definition env_step : step :=
  fun s =>
    match strip (py "process.env.") s with
    | Some (x :: rest) =>
        if Re.in_set env_first x then
          let n := span env_more rest in
          Some (12 + n, py "process.env['" ++ x :: firstn n rest ++ py "']")
        else None
    | _ => None
    end.

(** An environment variable name as the property-name rule reads it: an
    uppercase letter or underscore, then uppercase letters, digits and
    underscores. *)
Definition env_name (name : str) : bool :=
  match name with
  | [] => false
  | x :: rest => Re.in_set env_first x && forallb (Re.in_set env_more) rest
  end.

(** The text after an environment variable name does not continue the
    name. *)
Definition ends_name (rest : str) : bool :=
  match rest with
  | [] => true
  | c :: _ => negb (Re.in_set env_more c)
  end.

(** The name does not begin like an environment variable name. *)
Definition lower_start (name : str) : bool :=
  match name with
  | [] => true
  | c :: _ => negb (Re.in_set env_first c)
  end.

(** All the ways to cut [s] at an occurrence of [a]: the pairs
    [(before, after)] with [s = before ++ a :: after]. *)
Fixpoint splits (a : char) (s : str) : list (str * str) :=
  match s with
  | [] => []
  | x :: t =>
      (if N.eqb x a then [([], t)] else [])
      ++ map (fun bt => (x :: fst bt, snd bt)) (splits a t)
  end.

(** The property rules of a list of names, applied in order. *)
Definition apply_names (unicode_alnum : char -> bool) (names : list str)
    (s : str) : str :=
  fold_left (fun content name => rewrite (prop_step unicode_alnum name) content)
    names s.

Definition ascii_only (c : char) : bool := false.

(** A small working directory for the examples. *)
Definition demo : node := Dir [
  ("src"%string, Dir [
     ("a.ts"%string,
      File (inr (py "const k = process.env.API_KEY; user.email")) None);
     ("b.js"%string, File (inr (py "user.email")) None);
     ("lib"%string,
      Dir [("c.tsx"%string, File (inl "bad utf-8"%string) None);
           ("d.ts"%string, File (inr (py "obj.method(x)")) None)])
  ]);
  ("readme.md"%string, File (inr (py "x.name")) None)].

(** A directory whose first candidate has a name that is one byte no
    text encoding of the console has; [text] is what reading it yields. *)
Definition odd_name : string := String "255"%char ".ts".

Definition odd_tree (text : exn + str) : node := Dir [
  ("src"%string, Dir [
     (odd_name, File text None);
     ("z.ts"%string, File (inr (py "process.env.API_KEY")) None)])].

(** A character that separates what the rules see: an ASCII character
    that is not a word character, a dot or an opening parenthesis (a
    space, a newline, a semicolon, a comma, ...). *)
Definition separator (c : char) : bool :=
  N.ltb c 128 && negb (Re.ascii_word c)
  && negb (N.eqb c (ch ".")) && negb (N.eqb c (ch "(")).

(** The events one candidate adds to the log.  It is read; then either
    nothing follows (the text needed no change, or reading raised and
    the error line could not be printed), or an error line, or a write
    followed by a [Fixed] line, by an error line (writing raised, or the
    [Fixed] line could not be printed) or by nothing (no line could be
    printed). *)
Inductive file_block (err : stream) (p : path) : list event -> Prop :=
| block_read : file_block err p [EvRead p]
| block_unreadable (e : exn) :
    file_block err p [EvRead p; EvPrint err (ErrorProcessing p e)]
| block_written (content : str) :
    file_block err p [EvRead p; EvWrite p content]
| block_fixed (content : str) :
    file_block err p [EvRead p; EvWrite p content; EvPrint Stdout (Fixed p)]
| block_failed (content : str) (e : exn) :
    file_block err p
      [EvRead p; EvWrite p content; EvPrint err (ErrorProcessing p e)].

(** The files read, and the files written, in the order of the log. *)
Definition reads (evs : list event) : list path :=
  flat_map (fun e => match e with EvRead p => [p] | _ => [] end) evs.

Definition writes (evs : list event) : list path :=
  flat_map (fun e => match e with EvWrite p _ => [p] | _ => [] end) evs.

(** What a path is in a tree: nothing, a directory, or a file with what
    reading and writing it yield. *)
Definition stat (t : node) (p : path)
  : option (option ((exn + str) * option exn)) :=
  match lookup t p with
  | None => None
  | Some (Dir _) => Some None
  | Some (File text readonly) => Some (Some (text, readonly))
  end.

(** The names and kinds of a tree, without the contents of the files. *)
Fixpoint shape (n : node) : node :=
  match n with
  | File _ _ => File (inl EmptyString) None
  | Dir entries => Dir (map (fun e => (fst e, shape (snd e))) entries)
  end.

(** What a run makes of a path: a candidate that can be read and
    written holds its transformed text afterwards, everything else is as
    before. *)
Definition after_run (transform : str -> str) (candidate : bool)
    (s : option (option ((exn + str) * option exn)))
  : option (option ((exn + str) * option exn)) :=
  match s with
  | Some (Some (inr content, None)) =>
      if candidate then Some (Some (inr (transform content), None)) else s
  | _ => s
  end.

Definition path_eq_dec : forall p q : path, {p = q} + {p <> q} :=
  list_eq_dec string_dec.

Definition is_candidate (files : list path) (q : path) : bool :=
  if in_dec path_eq_dec q files then true else false.

(** A tree in which no directory lists a name twice. *)
#[warnings="-register-all"]
Inductive unique_names : node -> Prop :=
| unique_file (text : exn + str) (readonly : option exn) :
    unique_names (File text readonly)
| unique_dir (entries : list (string * node)) :
    NoDup (map fst entries) ->
    Forall (fun e => unique_names (snd e)) entries ->
    unique_names (Dir entries).

(** A file a run has to fix: it can be read and written and its text is
    not its own transform. *)
Definition needs_fix (transform : str -> str) (t : node) (q : path) : bool :=
  match stat t q with
  | Some (Some (inr content, None)) => negb (str_eqb (transform content) content)
  | _ => false
  end.

(** Whether reading [q] yields something else in [t'] than in [t]. *)
Definition text_eqb (a b : exn + str) : bool :=
  match a, b with
  | inl e, inl e' => String.eqb e e'
  | inr c, inr c' => str_eqb c c'
  | _, _ => false
  end.

Definition changed_on_disk (t t' : node) (q : path) : bool :=
  negb (text_eqb (tree_read_text t q) (tree_read_text t' q)).

(** Two steps tried in turn at the same position. *)
Definition either (m1 m2 : step) : step :=
  fun s =>
    match m1 s with
    | Some r => Some r
    | None => m2 s
    end.

(** * Properties *)

(** ** The model on concrete inputs *)

Example rx_property_name :
  Re.rx "\.new\b(?!\()" = prop_pattern (py "new").
Proof. reflexivity. Qed.

Example rx_outside_fragment : Re.rx "a|b" = [Re.FAILURE].
Proof. reflexivity. Qed.

(** Empty matches are replaced too, next to a match that is not empty
    as well as at the end of the text. *)
Example sub_empty_matches :
  Re.sub ascii_only (Re.rx "[x]*") (Re.Template (py "-")) (py "abxd")
  = py "-a-b--d-".
Proof. reflexivity. Qed.

(** The name of [fix_process_env] stops at the first character outside
    [[A-Z0-9_]] and cannot begin with a digit. *)
Example env_name_stops :
  FixTs4111.fix_process_env ascii_only (py "process.env.APIkey process.env.1A")
  = py "process.env['API']key process.env.1A".
Proof. reflexivity. Qed.

(** The rules see the text only: the argument of a call is rewritten
    like any other text, the call itself is not. *)
Example argument_rewritten :
  FixTs4111.transform ascii_only (py "obj.method(user.email)")
  = py "obj.method(user['email'])".
Proof. vm_compute. reflexivity. Qed.

(** A letter outside ASCII continues a word: with [233] (e acute)
    classified as alphanumeric, the boundary after [name] is missing. *)
Example unicode_boundary :
  FixTs4111.transform (fun c => N.eqb c 233) (py "a.name" ++ [233%N])
  = py "a.name" ++ [233%N]
  /\ FixTs4111.transform ascii_only (py "a.name" ++ [233%N])
     = py "a['name']" ++ [233%N].
Proof. split; vm_compute; reflexivity. Qed.

(** A run of [fix-ts4111.py] on the example directory: one file is
    rewritten, one is left alone, two cannot be read. *)
Example demo_run :
  let st := FixTs4111Main.main ascii_only
              {| disk := demo; console := strict_stdout |} in
  fixed_count st = 1
  /\ raised st = None
  /\ events st
     = [EvRead ["src"; "a.ts"];
        EvWrite ["src"; "a.ts"]
          (py "const k = process.env['API_KEY']; user['email']");
        EvPrint Stdout (Fixed ["src"; "a.ts"]);
        EvRead ["src"; "lib"; "d.ts"];
        EvRead ["src"; "lib"; "c.tsx"];
        EvPrint Stderr (ErrorProcessing ["src"; "lib"; "c.tsx"] "bad utf-8");
        EvRead ["next.config.ts"];
        EvPrint Stderr
          (ErrorProcessing ["next.config.ts"] "No such file or directory");
        EvPrint Stdout (FixedFiles 1)]%string
  /\ read_text (st_world st) ["src"; "b.js"]%string = inr (py "user.email").
Proof. vm_compute. auto. Qed.

(** A path that the standard output cannot encode.  The file is
    written and counted, its [Fixed] line raises inside the [try] block
    and the handler reports the exception: [fix-ts4111.py], on the error
    stream, goes on to the next file; [fix-process-env.py], on the
    standard output, raises again and the run ends there, without the
    line of the count. *)
Example unencodable_path :
  let m := {| disk := odd_tree (inr (py "process.env.HOME"));
              console := strict_stdout |} in
  let p := ["src"%string; odd_name] in
  let z := ["src"; "z.ts"]%string in
  let st := FixTs4111Main.main ascii_only m in
  let st' := FixProcessEnvMain.main ascii_only m in
  (fixed_count st = 2
   /\ raised st = None
   /\ events st
      = [EvRead p; EvWrite p (py "process.env['HOME']");
         EvPrint Stderr (ErrorProcessing p "UnicodeEncodeError"%string);
         EvRead z; EvWrite z (py "process.env['API_KEY']");
         EvPrint Stdout (Fixed z);
         EvRead ["next.config.ts"%string];
         EvPrint Stderr
           (ErrorProcessing ["next.config.ts"%string]
              "No such file or directory"%string);
         EvPrint Stdout (FixedFiles 2)])
  /\ (fixed_count st' = 1
      /\ raised st' = Some "UnicodeEncodeError"%string
      /\ events st' = [EvRead p; EvWrite p (py "process.env['HOME']")]
      /\ read_text (st_world st') z = inr (py "process.env.API_KEY")).
Proof. vm_compute. auto. Qed.

(** [rglob] lists every entry whose name matches, a directory too;
    reading it then raises. *)
Example directory_candidate :
  let t := Dir [("src", Dir [("d.ts", Dir [("h.ts", File (inr []) None)])])]%string in
  ts_files t = [["src"; "d.ts"]; ["src"; "d.ts"; "h.ts"]; ["next.config.ts"]]%string
  /\ read_text t ["src"; "d.ts"]%string = inl "Is a directory"%string.
Proof. vm_compute. auto. Qed.

(** ** Text *)

Lemma str_eqb_eq (a b : str) : str_eqb a b = true <-> a = b.
Proof.
  revert b; induction a as [|x a IH]; intros [|y b]; simpl;
    try (split; [discriminate | discriminate || congruence]);
    try tauto.
  rewrite andb_true_iff, N.eqb_eq, IH. split.
  - intros [-> ->]; reflexivity.
  - intros H; injection H; auto.
Qed.

Lemma str_eqb_refl (a : str) : str_eqb a a = true.
Proof. apply str_eqb_eq; reflexivity. Qed.

Lemma strip_app (p s : str) : strip p (p ++ s) = Some s.
Proof.
  induction p as [|a p IH]; simpl; [reflexivity|].
  rewrite N.eqb_refl; exact IH.
Qed.

Lemma strip_Some (p s rest : str) : strip p s = Some rest -> s = p ++ rest.
Proof.
  revert s; induction p as [|a p IH]; intros s H; simpl in *.
  - congruence.
  - destruct s as [|x s]; [discriminate|].
    destruct (N.eqb_spec x a); [|discriminate].
    subst; f_equal; auto.
Qed.

(** ** The matcher on the two families of patterns *)

Section MatcherFacts.

Variable w : char -> bool.

Lemma run_literals (lit : str) (p : Re.pattern) :
  forall prev s pos marks,
    Re.run w (map Re.LITERAL lit ++ p) prev s pos marks =
    match strip lit s with
    | Some rest => Re.run w p (last_char lit prev) rest (pos + List.length lit) marks
    | None => None
    end.
Proof.
  induction lit as [|a lit IH]; intros prev s pos marks; simpl.
  - rewrite Nat.add_0_r; reflexivity.
  - destruct s as [|x s]; [reflexivity|].
    destruct (N.eqb_spec x a); [|reflexivity].
    subst. rewrite IH. unfold last_char; simpl.
    rewrite Nat.add_succ_r. reflexivity.
Qed.

Lemma ascii_word_lt (c : char) : Re.ascii_word c = true -> (c < 128)%N.
Proof.
  unfold Re.ascii_word, Re.in_set, Re.in_item, ch; simpl.
  rewrite !orb_true_iff, !andb_true_iff, !N.leb_le, N.eqb_eq. lia.
Qed.

Lemma ascii_word_is_word (c : char) :
  Re.ascii_word c = true -> Re.is_word w c = true.
Proof.
  intros H. unfold Re.is_word.
  apply ascii_word_lt in H as Hlt. apply N.ltb_lt in Hlt.
  rewrite Hlt; exact H.
Qed.

Lemma last_char_word (name : str) (prev : option char) :
  good_name name = true ->
  Re.word_at w (last_char name prev) = true.
Proof.
  unfold good_name. destruct name as [|a name]; [discriminate|].
  revert a prev. induction name as [|b name IH]; intros a prev H.
  - simpl in *. rewrite andb_true_r in H. apply ascii_word_is_word; exact H.
  - change (forallb Re.ascii_word (a :: b :: name))
      with (Re.ascii_word a && forallb Re.ascii_word (b :: name)) in H.
    apply andb_true_iff in H as [_ H].
    exact (IH b (Some a) H).
Qed.

Lemma run_prop (name : str) (prev : option char) (s : str) :
  good_name name = true ->
  Re.run w (prop_pattern name) prev s 0 [] =
  match strip (ch "." :: name) s with
  | Some rest =>
      if after_name w rest then Some (S (List.length name), []) else None
  | None => None
  end.
Proof.
  intros Hg. unfold prop_pattern.
  change (Re.LITERAL (ch ".") :: map Re.LITERAL name ++ ?q)
    with (map Re.LITERAL (ch "." :: name) ++ q).
  rewrite run_literals.
  destruct (strip (ch "." :: name) s) as [rest|]; [|reflexivity].
  cbn [Re.run].
  change (last_char (ch "." :: name) prev) with (last_char name (Some (ch "."))).
  rewrite (last_char_word name (Some (ch ".")) Hg). simpl xorb.
  destruct rest as [|x rest]; simpl; [reflexivity|].
  destruct (Re.is_word w x); simpl; [reflexivity|].
  destruct (N.eqb x (ch "(")); reflexivity.
Qed.

Lemma run_repeat_cons items p prev x t pos marks :
  Re.run w (Re.MAX_REPEAT_IN items :: p) prev (x :: t) pos marks =
  if Re.in_set items x then
    match Re.run w (Re.MAX_REPEAT_IN items :: p) (Some x) t (S pos) marks with
    | Some r => Some r
    | None => Re.run w p prev (x :: t) pos marks
    end
  else Re.run w p prev (x :: t) pos marks.
Proof. reflexivity. Qed.

Lemma run_repeat_nil items p prev pos marks :
  Re.run w (Re.MAX_REPEAT_IN items :: p) prev [] pos marks =
  Re.run w p prev [] pos marks.
Proof. reflexivity. Qed.

(** A greedy repeat at the end of a pattern takes the longest run. *)
Lemma run_repeat_last items i s :
  forall prev pos marks,
    Re.run w [Re.MAX_REPEAT_IN items; Re.MARK i] prev s pos marks =
    Some (pos + span items s, (i, pos + span items s) :: marks).
Proof.
  induction s as [|x t IH]; intros prev pos marks.
  - rewrite run_repeat_nil. simpl. rewrite Nat.add_0_r. reflexivity.
  - rewrite run_repeat_cons. simpl span.
    destruct (Re.in_set items x).
    + rewrite IH. rewrite Nat.add_succ_r. reflexivity.
    + simpl. rewrite Nat.add_0_r. reflexivity.
Qed.

Lemma env_pattern_eq : Re.rx "process\.env\.([A-Z_][A-Z0-9_]*)" = env_pattern.
Proof. reflexivity. Qed.

Lemma run_env (prev : option char) (s : str) :
  Re.run w env_pattern prev s 0 [] =
  match strip (py "process.env.") s with
  | Some (x :: rest) =>
      if Re.in_set env_first x
      then Some (13 + span env_more rest,
                 [(1, 13 + span env_more rest); (0, 12)])
      else None
  | _ => None
  end.
Proof.
  unfold env_pattern. rewrite run_literals.
  destruct (strip (py "process.env.") s) as [[|x rest]|]; try reflexivity.
  change (Re.run w [Re.MARK 0; Re.IN env_first; Re.MAX_REPEAT_IN env_more; Re.MARK 1]
            (last_char (py "process.env.") prev) (x :: rest)
            (0 + List.length (py "process.env.")) [])
    with (if Re.in_set env_first x
          then Re.run w [Re.MAX_REPEAT_IN env_more; Re.MARK 1] (Some x) rest 13
                 [(0, 12)]
          else None).
  destruct (Re.in_set env_first x); [|reflexivity].
  rewrite run_repeat_last. reflexivity.
Qed.

(** A template without a backslash is copied as it is. *)
Lemma expand_template_plain (t : str) (m : Re.match_obj) :
  forallb (fun c => negb (N.eqb c (ch "\"))) t = true ->
  Re.expand_template t m = t.
Proof.
  induction t as [|c t IH]; intros H; [reflexivity|].
  simpl in H. apply andb_true_iff in H as [Hc Ht].
  simpl. destruct t as [|d t']; [reflexivity|].
  apply negb_true_iff in Hc. rewrite Hc. simpl andb.
  rewrite IH by exact Ht. reflexivity.
Qed.

Lemma ascii_word_plain (name : str) :
  forallb Re.ascii_word name = true ->
  forallb (fun c => negb (N.eqb c (ch "\"))) name = true.
Proof.
  induction name as [|c name IH]; simpl; [reflexivity|].
  rewrite !andb_true_iff. intros [Hc Hn]. split; [|auto].
  destruct (N.eqb c (ch "\")) eqn:E; [|reflexivity].
  apply N.eqb_eq in E. subst. discriminate.
Qed.

Lemma good_name_word (name : str) :
  good_name name = true -> forallb Re.ascii_word name = true.
Proof. destruct name; [discriminate | exact (fun H => H)]. Qed.

Lemma step_of_prop (name : str) (s : str) :
  good_name name = true ->
  step_of w (prop_pattern name) (Re.Template (prop_replacement name)) s =
  prop_step w name s.
Proof.
  intros Hg. unfold step_of, Re.match_here, prop_step.
  rewrite run_prop by exact Hg.
  destruct (strip (ch "." :: name) s) as [rest|]; [|reflexivity].
  destruct (after_name w rest); [|reflexivity].
  cbn [Re.m_end Re.expand]. f_equal. f_equal.
  apply expand_template_plain.
  unfold prop_replacement. rewrite !forallb_app.
  rewrite !andb_true_iff. repeat split.
  exact (ascii_word_plain _ (good_name_word _ Hg)).
Qed.

Lemma firstn_skipn_mid (a : str) (x : char) (rest : str) (n : nat) :
  firstn (S n) (skipn (List.length a) (a ++ x :: rest)) = x :: firstn n rest.
Proof.
  rewrite skipn_app, skipn_all, Nat.sub_diag. reflexivity.
Qed.

Lemma env_group1 (s rest : str) (n : nat) (x0 : char)
    (H : strip (py "process.env.") s = Some (x0 :: rest)) :
  Re.group {| Re.m_string := s; Re.m_end := 13 + n;
              Re.m_marks := [(1, 13 + n); (0, 12)] |} 1 =
  Some (x0 :: firstn n rest).
Proof.
  apply strip_Some in H. subst s.
  unfold Re.group. cbn [Re.mark Re.m_marks Re.m_string Nat.eqb Nat.mul Nat.add].
  replace (13 + n - 12) with (S n) by lia.
  rewrite <- (firstn_skipn_mid (py "process.env.") x0 rest n).
  reflexivity.
Qed.

Lemma step_of_env_template (s : str) :
  step_of w env_pattern (Re.Template (py "process.env['\1']")) s = env_step s.
Proof.
  unfold step_of, Re.match_here, env_step. rewrite run_env.
  destruct (strip (py "process.env.") s) as [[|x rest]|] eqn:E; try reflexivity.
  destruct (Re.in_set env_first x); [|reflexivity].
  cbn [Re.m_end Nat.add]. f_equal. f_equal.
  unfold Re.expand.
  pose proof (env_group1 s rest (span env_more rest) x E) as G.
  set (m := {| Re.m_string := s |}) in *.
  change (Re.expand_template (py "process.env['\1']") m)
    with (py "process.env['" ++
          match Re.group m 1 with Some g => g | None => [] end ++ py "']").
  rewrite G. reflexivity.
Qed.

Lemma step_of_env_callable (s : str) :
  step_of w env_pattern (Re.Callable FixProcessEnv.replace_match) s = env_step s.
Proof.
  unfold step_of, Re.match_here, env_step. rewrite run_env.
  destruct (strip (py "process.env.") s) as [[|x rest]|] eqn:E; try reflexivity.
  destruct (Re.in_set env_first x); [|reflexivity].
  cbn [Re.m_end Nat.add]. f_equal. f_equal.
  unfold Re.expand, FixProcessEnv.replace_match.
  pose proof (env_group1 s rest (span env_more rest) x E) as G.
  cbn [Nat.add] in G. rewrite G. reflexivity.
Qed.

(** *** The scanner as a rewriting step *)

Lemma run_pos_le (p : Re.pattern) :
  forall prev s pos marks n mk,
    Re.run w p prev s pos marks = Some (n, mk) -> pos <= n.
Proof.
  induction p as [|o p IH]; intros prev s pos marks n mk H.
  - simpl in H. injection H as <- _. lia.
  - destruct o as [c|items|items|i| |c|].
    + simpl in H. destruct s as [|x t]; [discriminate|].
      destruct (N.eqb x c); [|discriminate]. apply IH in H. lia.
    + simpl in H. destruct s as [|x t]; [discriminate|].
      destruct (Re.in_set items x); [|discriminate]. apply IH in H. lia.
    + revert prev pos H. induction s as [|x t IHs]; intros prev pos H.
      * rewrite run_repeat_nil in H. eauto.
      * rewrite run_repeat_cons in H.
        destruct (Re.in_set items x); [|eauto].
        destruct (Re.run w (Re.MAX_REPEAT_IN items :: p) (Some x) t (S pos) marks)
          as [[n' mk']|] eqn:E.
        -- injection H as <- <-. apply IHs in E. lia.
        -- eauto.
    + simpl in H. eauto.
    + simpl in H.
      destruct (xorb (Re.word_at w prev) (Re.word_at w (hd_error s)));
        [eauto | discriminate].
    + simpl in H. destruct s as [|x t]; [eauto|].
      destruct (N.eqb x c); [discriminate | eauto].
    + discriminate.
Qed.

Lemma anchored_nil (p : Re.pattern) (prev : option char) :
  anchored p = true -> Re.match_here w p prev [] = None.
Proof.
  destruct p as [|[] p]; try discriminate. reflexivity.
Qed.

Lemma anchored_prev (p : Re.pattern) (prev : option char) (s : str) :
  anchored p = true -> Re.match_here w p prev s = Re.match_here w p None s.
Proof.
  destruct p as [|[] p]; try discriminate. reflexivity.
Qed.

Lemma anchored_end (p : Re.pattern) (prev : option char) (s : str) m :
  anchored p = true -> Re.match_here w p prev s = Some m -> 1 <= Re.m_end m.
Proof.
  destruct p as [|[c| | | | | |] p]; try discriminate. intros _.
  unfold Re.match_here. simpl.
  destruct s as [|x t]; [discriminate|].
  destruct (N.eqb x c); [|discriminate].
  destruct (Re.run w p (Some x) t 1 []) as [[n mk]|] eqn:E; [|discriminate].
  intros H. injection H as <-. simpl. eapply run_pos_le; exact E.
Qed.

Lemma sub_scan_rewrite (p : Re.pattern) (r : Re.repl) :
  anchored p = true ->
  forall s prev skip,
    Re.sub_scan w p r prev skip s = rewrite_from (step_of w p r) skip s.
Proof.
  intros Ha. induction s as [|c t IH]; intros prev skip.
  - simpl. rewrite anchored_nil by exact Ha. destruct skip; reflexivity.
  - simpl. destruct skip as [|k]; [|apply IH].
    unfold step_of. rewrite (anchored_prev p prev (c :: t) Ha).
    destruct (Re.match_here w p None (c :: t)) as [m|] eqn:E.
    + pose proof (anchored_end p None (c :: t) m Ha E) as Hm.
      destruct (Re.m_end m) as [|n]; [lia|].
      rewrite IH. reflexivity.
    + rewrite IH. reflexivity.
Qed.

Lemma sub_rewrite (p : Re.pattern) (r : Re.repl) (s : str) :
  anchored p = true -> Re.sub w p r s = rewrite (step_of w p r) s.
Proof. intros Ha. apply sub_scan_rewrite; exact Ha. Qed.

Lemma search_occurs (p : Re.pattern) (r : Re.repl) :
  anchored p = true ->
  forall s prev, Re.search_from w p prev s = occurs (fires (step_of w p r)) s.
Proof.
  intros Ha. induction s as [|c t IH]; intros prev.
  - simpl. unfold fires, step_of. rewrite !anchored_nil by exact Ha. reflexivity.
  - simpl. unfold fires at 1. unfold step_of.
    rewrite (anchored_prev p prev (c :: t) Ha).
    destruct (Re.match_here w p None (c :: t)) as [m|] eqn:E.
    + pose proof (anchored_end p None (c :: t) m Ha E) as Hm.
      destruct (Re.m_end m) as [|n]; [lia|]. reflexivity.
    + simpl. apply IH.
Qed.

End MatcherFacts.

(** ** Rewriting steps in general *)

Section RewriteFacts.

Variable m : step.

Lemma rewrite_from_skipn : forall s k,
  rewrite_from m k s = rewrite m (skipn k s).
Proof.
  induction s as [|c t IH]; intros [|k]; try reflexivity.
  simpl. apply IH.
Qed.

Lemma rewrite_cons (c : char) (t : str) :
  rewrite m (c :: t) =
  match m (c :: t) with
  | Some (n, r) => r ++ rewrite m (skipn n t)
  | None => c :: rewrite m t
  end.
Proof.
  unfold rewrite at 1. simpl.
  destruct (m (c :: t)) as [[n r]|]; [|reflexivity].
  rewrite rewrite_from_skipn. reflexivity.
Qed.

Lemma occurs_cons (q : str -> bool) (c : char) (t : str) :
  occurs q (c :: t) = q (c :: t) || occurs q t.
Proof. reflexivity. Qed.

Lemma occurs_skipn (q : str -> bool) : forall k s,
  occurs q s = false -> occurs q (skipn k s) = false.
Proof.
  induction k as [|k IH]; intros s H; [exact H|].
  destruct s as [|c t]; [exact H|].
  simpl skipn. apply IH.
  rewrite occurs_cons in H. apply orb_false_iff in H. tauto.
Qed.

(** A step that fires nowhere leaves the text as it is. *)
Lemma rewrite_id : forall s, occurs (fires m) s = false -> rewrite m s = s.
Proof.
  induction s as [|c t IH]; intros H; [reflexivity|].
  rewrite occurs_cons in H. apply orb_false_iff in H as [Hh Ht].
  rewrite rewrite_cons. unfold fires in Hh.
  destruct (m (c :: t)); [discriminate|].
  rewrite IH by exact Ht. reflexivity.
Qed.

(** Locality: if what follows [a] changes nothing to what the step does
    at the positions of [a], and a match never runs over the end of the
    text, then [a] and what follows are rewritten independently. *)
Lemma rewrite_app_local (b : str) :
  (forall p n r, m p = Some (n, r) -> n < List.length p) ->
  forall a,
    (forall u p, a = u ++ p -> p <> [] -> m (p ++ b) = m p) ->
    rewrite m (a ++ b) = rewrite m a ++ rewrite m b.
Proof.
  intros Hlen a.
  induction a as [a IH] using (well_founded_induction
    (well_founded_ltof _ (@List.length char))).
  unfold ltof in IH. intros Hsuf.
  assert (Hloc : forall p, p = a -> p <> [] -> m (p ++ b) = m p)
    by (intros p -> Hp; apply (Hsuf [] a); [reflexivity | exact Hp]).
  destruct a as [|c t]; [reflexivity|].
  specialize (Hloc (c :: t) eq_refl).
  change ((c :: t) ++ b) with (c :: (t ++ b)).
  rewrite !rewrite_cons.
  change (c :: (t ++ b)) with ((c :: t) ++ b).
  rewrite Hloc by discriminate.
  destruct (m (c :: t)) as [[n r]|] eqn:E.
  - apply Hlen in E. simpl in E.
    rewrite skipn_app.
    replace (n - List.length t) with 0 by lia. simpl skipn.
    rewrite IH.
    + rewrite app_assoc. reflexivity.
    + rewrite length_skipn; simpl; lia.
    + intros u p Hp Hne. apply (Hsuf (c :: firstn n t ++ u) p); [|exact Hne].
      simpl. rewrite <- app_assoc, <- Hp, firstn_skipn. reflexivity.
  - rewrite IH.
    + reflexivity.
    + simpl; lia.
    + intros u p Hp Hne. apply (Hsuf (c :: u) p); [|exact Hne].
      simpl. rewrite Hp. reflexivity.
Qed.

(** If every replacement begins with [x], a stretch of the output
    without [x] is a stretch of the input. *)
Lemma rewrite_prefix (x : char) :
  (forall s n r, m s = Some (n, r) -> exists r', r = x :: r') ->
  forall v t r,
    forallb (fun c => negb (N.eqb c x)) v = true ->
    rewrite m t = v ++ r ->
    exists r', t = v ++ r' /\ rewrite m r' = r.
Proof.
  intros Hx. induction v as [|a v IH]; intros t r Hv H.
  - exists t. split; [reflexivity | exact H].
  - simpl in Hv. apply andb_true_iff in Hv as [Ha Hv].
    apply negb_true_iff, N.eqb_neq in Ha.
    destruct t as [|c t]; [discriminate|].
    rewrite rewrite_cons in H.
    destruct (m (c :: t)) as [[n rr]|] eqn:E.
    + destruct (Hx _ _ _ E) as [r' ->]. simpl in H. congruence.
    + simpl in H. injection H as -> H.
      destruct (IH t r Hv H) as [r' [-> Hr]].
      exists r'. split; [reflexivity | exact Hr].
Qed.

Lemma occurs_app_false (q : str -> bool) (X : str) : forall r,
  (forall u v, r = u ++ v -> v <> [] -> q (v ++ X) = false) ->
  occurs q X = false ->
  occurs q (r ++ X) = false.
Proof.
  induction r as [|a r IH]; intros Hr HX; [exact HX|].
  simpl app. rewrite occurs_cons. apply orb_false_iff. split.
  - apply (Hr [] (a :: r)); [reflexivity | discriminate].
  - apply IH; [|exact HX].
    intros u v -> Hv. apply (Hr (a :: u) v); [reflexivity | exact Hv].
Qed.

(** The output of a step has no position where [q] holds, if [q] holds
    at no position the step passes over, cannot begin inside a
    replacement, and holds at the head of the output only when it holds
    at the head of the input. *)
Lemma rewrite_clean (q : str -> bool) :
  q [] = false ->
  (forall s n r, m s = Some (n, r) ->
     forall u v z, r = u ++ v -> v <> [] -> q (v ++ z) = false) ->
  (forall t, m t = None -> q (rewrite m t) = true -> q t = true) ->
  forall s,
    occurs (fun t => negb (fires m t) && q t) s = false ->
    occurs q (rewrite m s) = false.
Proof.
  intros Hnil Hin Hhead s.
  induction s as [s IH] using (well_founded_induction
    (well_founded_ltof _ (@List.length char))).
  unfold ltof in IH. intros Hs.
  destruct s as [|c t].
  - simpl. rewrite Hnil. reflexivity.
  - rewrite occurs_cons in Hs. apply orb_false_iff in Hs as [Hh Ht].
    rewrite rewrite_cons. unfold fires in Hh.
    destruct (m (c :: t)) as [[n r]|] eqn:E.
    + apply occurs_app_false.
      * intros u v Hr Hv. exact (Hin _ _ _ E u v _ Hr Hv).
      * apply IH; [rewrite length_skipn; simpl; lia|].
        apply occurs_skipn. exact Ht.
    + rewrite occurs_cons. apply orb_false_iff. split.
      * simpl in Hh.
        destruct (q (c :: rewrite m t)) eqn:Q; [|reflexivity].
        rewrite <- Hh. symmetry. apply Hhead; [exact E|].
        rewrite rewrite_cons, E. exact Q.
      * apply IH; [simpl; lia | exact Ht].
Qed.

End RewriteFacts.

Lemma rewrite_from_ext (m1 m2 : step) :
  (forall s, m1 s = m2 s) ->
  forall s k, rewrite_from m1 k s = rewrite_from m2 k s.
Proof.
  intros H. induction s as [|c t IH]; intros k; [reflexivity|].
  simpl. destruct k as [|k]; [|apply IH].
  rewrite H. destruct (m2 (c :: t)) as [[n r]|]; rewrite IH; reflexivity.
Qed.

Lemma rewrite_ext (m1 m2 : step) (s : str) :
  (forall s, m1 s = m2 s) -> rewrite m1 s = rewrite m2 s.
Proof. intros H. apply rewrite_from_ext; exact H. Qed.

Lemma occurs_ext (q1 q2 : str -> bool) :
  (forall s, q1 s = q2 s) -> forall s, occurs q1 s = occurs q2 s.
Proof.
  intros H. induction s as [|c t IH]; simpl; rewrite H; [reflexivity|].
  rewrite IH; reflexivity.
Qed.

(** ** Lists of characters *)

Lemma strip_prefix_cases (P : str) : forall v z rest,
  strip P (v ++ z) = Some rest ->
  (exists P2, P = v ++ P2) \/ (exists v2, v = P ++ v2).
Proof.
  induction P as [|a P IH]; intros v z rest H.
  - right. exists v. reflexivity.
  - destruct v as [|x v]; [left; exists (a :: P); reflexivity|].
    simpl in H. destruct (N.eqb_spec x a); [|discriminate]. subst x.
    destruct (IH v z rest H) as [[P2 ->]|[v2 ->]].
    + left. exists P2. reflexivity.
    + right. exists v2. reflexivity.
Qed.

(** What [strip] does to a text that is continued. *)
Lemma strip_app_Some (P p b rest : str) :
  strip P p = Some rest -> strip P (p ++ b) = Some (rest ++ b).
Proof.
  intros H. apply strip_Some in H. subst p.
  rewrite <- app_assoc. apply strip_app.
Qed.

Lemma strip_app_None (P : str) : forall p b rest,
  strip P p = None -> strip P (p ++ b) = Some rest ->
  exists P2, P = p ++ P2 /\ P2 <> [] /\ strip P2 b = Some rest.
Proof.
  induction P as [|a P IH]; intros p b rest Hn Hs; [discriminate|].
  destruct p as [|x p].
  - exists (a :: P). repeat split; [discriminate | exact Hs].
  - simpl in *. destruct (N.eqb_spec x a); [|discriminate]. subst x.
    destruct (IH p b rest Hn Hs) as [P2 [-> [Hne HP2]]].
    exists P2. repeat split; assumption.
Qed.

Lemma strip_head (a : char) (P s rest : str) :
  strip (a :: P) s = Some rest -> exists t, s = a :: t.
Proof.
  intros H. apply strip_Some in H. subst. eexists; reflexivity.
Qed.

Lemma forallb_In {A : Type} (f : A -> bool) (l : list A) (x : A) :
  forallb f l = true -> In x l -> f x = true.
Proof. intros H. exact (proj1 (forallb_forall f l) H x). Qed.

(** A text splits in one way only into word characters, a character
    that is not one, and the rest. *)
Lemma word_split_unique : forall a1 a2 c1 c2 (r1 r2 : str),
  forallb Re.ascii_word a1 = true -> Re.ascii_word c1 = false ->
  forallb Re.ascii_word a2 = true -> Re.ascii_word c2 = false ->
  a1 ++ c1 :: r1 = a2 ++ c2 :: r2 ->
  a1 = a2 /\ c1 = c2 /\ r1 = r2.
Proof.
  induction a1 as [|x a1 IH]; intros [|y a2] c1 c2 r1 r2 H1 Hc1 H2 Hc2 E;
    simpl in *.
  - injection E as -> ->. auto.
  - injection E as -> _. apply andb_true_iff in H2 as [H2 _]. congruence.
  - injection E as -> _. apply andb_true_iff in H1 as [H1 _]. congruence.
  - injection E as -> E.
    apply andb_true_iff in H1 as [_ H1]. apply andb_true_iff in H2 as [_ H2].
    destruct (IH a2 c1 c2 r1 r2 H1 Hc1 H2 Hc2 E) as [-> [-> ->]]. auto.
Qed.

(** Every non-empty final part of a text ends with its last character. *)
Lemma suffix_last (r0 : str) (a : char) (u v : str) :
  r0 ++ [a] = u ++ v -> v <> [] -> exists v', v = v' ++ [a].
Proof.
  intros H Hv. destruct (exists_last Hv) as [v' [b ->]].
  rewrite app_assoc in H. apply app_inj_tail in H as [_ ->].
  exists v'. reflexivity.
Qed.

(** ** The two families of steps *)

Section Families.

Variable w : char -> bool.

Lemma not_word_not_in (c : char) (name : str) :
  forallb Re.ascii_word name = true -> Re.ascii_word c = false -> ~ In c name.
Proof.
  intros H Hc Hin. rewrite (forallb_In _ _ _ H Hin) in Hc. discriminate.
Qed.

Lemma word_differs (x : char) (name : str) :
  forallb Re.ascii_word name = true -> Re.ascii_word x = false ->
  forallb (fun c => negb (N.eqb c x)) name = true.
Proof.
  intros H Hx. apply forallb_forall. intros c Hc.
  apply negb_true_iff, N.eqb_neq. intros ->.
  rewrite (forallb_In _ _ _ H Hc) in Hx. discriminate.
Qed.

Lemma prop_step_Some (j s : str) (n : nat) (r : str) :
  prop_step w j s = Some (n, r) ->
  exists rest, s = ch "." :: j ++ rest /\ after_name w rest = true
               /\ n = List.length j /\ r = prop_replacement j.
Proof.
  unfold prop_step. destruct (strip (ch "." :: j) s) as [rest|] eqn:E;
    [|discriminate].
  destruct (after_name w rest) eqn:A; [|discriminate].
  intros H. injection H as <- <-. exists rest.
  apply strip_Some in E. auto.
Qed.

Lemma prop_step_intro (j rest : str) :
  after_name w rest = true ->
  prop_step w j (ch "." :: j ++ rest) = Some (List.length j, prop_replacement j).
Proof.
  intros A. unfold prop_step.
  change (ch "." :: j ++ rest) with ((ch "." :: j) ++ rest).
  rewrite strip_app, A. reflexivity.
Qed.

Lemma prop_step_length (j p : str) (n : nat) (r : str) :
  prop_step w j p = Some (n, r) -> n < List.length p.
Proof.
  intros H. destruct (prop_step_Some _ _ _ _ H) as [rest [-> [_ [-> _]]]].
  simpl. rewrite length_app. lia.
Qed.

Lemma prop_step_bracket (j s : str) (n : nat) (r : str) :
  prop_step w j s = Some (n, r) -> exists r', r = ch "[" :: r'.
Proof.
  intros H. destruct (prop_step_Some _ _ _ _ H) as [rest [_ [_ [_ ->]]]].
  eexists. reflexivity.
Qed.

Lemma fires_prop (k t : str) :
  fires (prop_step w k) t = true ->
  exists rest, t = ch "." :: k ++ rest /\ after_name w rest = true.
Proof.
  unfold fires. destruct (prop_step w k t) as [[n r]|] eqn:E; [|discriminate].
  intros _. destruct (prop_step_Some _ _ _ _ E) as [rest [-> [A _]]].
  exists rest. auto.
Qed.

Lemma env_step_Some (s : str) (n : nat) (r : str) :
  env_step s = Some (n, r) ->
  exists x rest,
    s = py "process.env." ++ x :: rest /\ Re.in_set env_first x = true
    /\ n = 12 + span env_more rest
    /\ r = py "process.env['" ++ x :: firstn (span env_more rest) rest ++ py "']".
Proof.
  unfold env_step.
  destruct (strip (py "process.env.") s) as [[|x rest]|] eqn:E; try discriminate.
  destruct (Re.in_set env_first x) eqn:F; [|discriminate].
  intros H. injection H as <- <-. exists x, rest.
  apply strip_Some in E. auto.
Qed.

Lemma env_step_intro (x : char) (rest : str) :
  Re.in_set env_first x = true ->
  env_step (py "process.env." ++ x :: rest) =
  Some (12 + span env_more rest,
        py "process.env['" ++ x :: firstn (span env_more rest) rest ++ py "']").
Proof.
  intros F. unfold env_step. rewrite strip_app, F. reflexivity.
Qed.

Lemma fires_env (t : str) :
  fires env_step t = true ->
  exists x rest, t = py "process.env." ++ x :: rest
                 /\ Re.in_set env_first x = true.
Proof.
  unfold fires. destruct (env_step t) as [[n r]|] eqn:E; [|discriminate].
  intros _. destruct (env_step_Some _ _ _ E) as [x [rest [-> [F _]]]].
  exists x, rest. auto.
Qed.

Lemma span_le (items : list Re.set_item) (s : str) :
  span items s <= List.length s.
Proof.
  induction s as [|x t IH]; simpl; [lia|].
  destruct (Re.in_set items x); simpl; lia.
Qed.

Lemma env_step_length (p : str) (n : nat) (r : str) :
  env_step p = Some (n, r) -> n < List.length p.
Proof.
  intros H. destruct (env_step_Some _ _ _ H) as [x [rest [-> [_ [-> _]]]]].
  rewrite length_app. simpl List.length.
  pose proof (span_le env_more rest). lia.
Qed.

Lemma env_step_p (s : str) (n : nat) (r : str) :
  env_step s = Some (n, r) -> exists r', r = ch "p" :: r'.
Proof.
  intros H. destruct (env_step_Some _ _ _ H) as [x [rest [_ [_ [_ ->]]]]].
  eexists. reflexivity.
Qed.

Lemma env_first_not_word_free (x : char) :
  Re.in_set env_first x = true -> Re.ascii_word x = true.
Proof.
  unfold env_first, Re.ascii_word, Re.in_set. simpl.
  rewrite !orb_false_r. intros H. apply orb_true_iff in H as [H|H];
    rewrite H; repeat rewrite orb_true_r; reflexivity.
Qed.

Lemma env_more_word (x : char) :
  Re.in_set env_more x = true -> Re.ascii_word x = true.
Proof.
  unfold env_more, Re.ascii_word, Re.in_set. simpl.
  rewrite !orb_false_r. intros H.
  apply orb_true_iff in H as [H|H]; [|apply orb_true_iff in H as [H|H]];
    rewrite H; repeat rewrite orb_true_r; reflexivity.
Qed.

Lemma env_more_upper (x : char) :
  Re.in_set env_more x = true -> (x <= 95)%N.
Proof.
  unfold env_more, Re.in_set, Re.in_item, ch; simpl.
  rewrite !orb_true_iff, !andb_true_iff, !N.leb_le, N.eqb_eq. lia.
Qed.

Lemma env_first_more (x : char) :
  Re.in_set env_first x = true -> Re.in_set env_more x = true.
Proof.
  unfold env_first, env_more, Re.in_set. simpl.
  rewrite !orb_false_r. intros H. apply orb_true_iff in H as [H|H];
    rewrite H; repeat rewrite orb_true_r; reflexivity.
Qed.

(** *** No step re-creates a match *)

Lemma good_name_not (x : char) (j : str) :
  good_name j = true -> Re.ascii_word x = false -> ~ In x j.
Proof.
  intros Hg. apply not_word_not_in. apply good_name_word; exact Hg.
Qed.

Lemma in_prop_replacement (j : str) (c : char) :
  In c (prop_replacement j) ->
  c = ch "[" \/ c = ch "'" \/ c = ch "]" \/ In c j.
Proof.
  unfold prop_replacement. rewrite !in_app_iff.
  intros [H|[H|H]]; [| auto |].
  - destruct H as [<-|[<-|[]]]; auto.
  - destruct H as [<-|[<-|[]]]; auto.
Qed.

(** A pattern text that contains a dot and no closing bracket cannot
    begin inside the replacement of a property rule. *)
Lemma prop_inside (j P : str) :
  good_name j = true ->
  In (ch ".") P -> ~ In (ch "]") P ->
  forall u v z rest,
    prop_replacement j = u ++ v -> v <> [] ->
    strip P (v ++ z) = Some rest -> False.
Proof.
  intros Hg Hdot Hbr u v z rest Hr Hv Hs.
  destruct (strip_prefix_cases _ _ _ _ Hs) as [[P2 ->]|[v2 ->]].
  - change (prop_replacement j)
      with (py "['" ++ j ++ py "']") in Hr.
    replace (py "['" ++ j ++ py "']")
      with ((py "['" ++ j ++ [ch "'"]) ++ [ch "]"]) in Hr
      by (rewrite <- !app_assoc; reflexivity).
    destruct (suffix_last _ _ _ _ Hr Hv) as [v' ->].
    apply Hbr. rewrite !in_app_iff. simpl. auto.
  - assert (Hin : In (ch ".") (prop_replacement j)).
    { rewrite Hr. rewrite !in_app_iff. auto. }
    apply in_prop_replacement in Hin.
    destruct Hin as [H|[H|[H|H]]]; try discriminate.
    revert H. apply good_name_not; [exact Hg | reflexivity].
Qed.

Lemma after_name_dot (rest : str) : after_name w (ch "." :: rest) = true.
Proof. reflexivity. Qed.

Lemma after_name_rewrite (j r : str) :
  after_name w (rewrite (prop_step w j) r) = true -> after_name w r = true.
Proof.
  destruct r as [|c r]; [reflexivity|].
  rewrite rewrite_cons.
  destruct (prop_step w j (c :: r)) as [[n rr]|] eqn:E; [|exact (fun H => H)].
  intros _. destruct (prop_step_Some _ _ _ _ E) as [rest [Hs _]].
  injection Hs as -> _. reflexivity.
Qed.

Lemma head_prop_prop (j k : str) :
  good_name j = true -> good_name k = true ->
  forall t, fires (prop_step w k) (rewrite (prop_step w j) t) = true ->
            fires (prop_step w k) t = true.
Proof.
  intros Hj Hk t H.
  destruct (fires_prop _ _ H) as [rest [Hout A]].
  destruct (rewrite_prefix (prop_step w j) (ch "[") (prop_step_bracket j)
              (ch "." :: k) t rest) as [r' [-> Hr]].
  - simpl. apply word_differs; [apply good_name_word; exact Hk | reflexivity].
  - exact Hout.
  - subst rest. apply after_name_rewrite in A.
    unfold fires. change ((ch "." :: k) ++ r') with (ch "." :: k ++ r').
    rewrite prop_step_intro by exact A. reflexivity.
Qed.

Lemma env_first_differs (x c : char) :
  Re.in_set env_first x = true -> Re.ascii_word c = false ->
  negb (N.eqb x c) = true.
Proof.
  intros F Hc. apply negb_true_iff, N.eqb_neq. intros ->.
  apply env_first_not_word_free in F. congruence.
Qed.

Lemma head_prop_env (j : str) :
  forall t, fires env_step (rewrite (prop_step w j) t) = true ->
            fires env_step t = true.
Proof.
  intros t H.
  destruct (fires_env _ H) as [x [rest [Hout F]]].
  destruct (rewrite_prefix (prop_step w j) (ch "[") (prop_step_bracket j)
              (py "process.env." ++ [x]) t rest) as [r' [-> Hr]].
  - rewrite forallb_app. simpl.
    rewrite (env_first_differs x (ch "[") F) by reflexivity. reflexivity.
  - rewrite <- app_assoc. exact Hout.
  - unfold fires. rewrite <- app_assoc. simpl app at 2.
    rewrite env_step_intro by exact F. reflexivity.
Qed.

Lemma env_more_not_p (x : char) :
  Re.in_set env_more x = true -> negb (N.eqb x (ch "p")) = true.
Proof.
  intros H. apply env_more_upper in H.
  apply negb_true_iff, N.eqb_neq. unfold ch; simpl. lia.
Qed.

Lemma head_env_env (t : str) :
  env_step t = None -> fires env_step (rewrite env_step t) = true ->
  fires env_step t = true.
Proof.
  intros E H. destruct t as [|c t]; [discriminate H|].
  rewrite rewrite_cons, E in H.
  destruct (fires_env _ H) as [x [rest [Hout F]]].
  change (py "process.env." ++ x :: rest)
    with (ch "p" :: (py "rocess.env." ++ x :: rest)) in Hout.
  injection Hout as -> Hout.
  destruct (rewrite_prefix env_step (ch "p") env_step_p
              (py "rocess.env." ++ [x]) t rest) as [r' [-> Hr]].
  - rewrite forallb_app. simpl.
    rewrite (env_more_not_p x (env_first_more x F)). reflexivity.
  - rewrite <- app_assoc. exact Hout.
  - unfold fires.
    change (ch "p" :: (py "rocess.env." ++ [x]) ++ r')
      with (py "process.env." ++ x :: r').
    rewrite env_step_intro by exact F. reflexivity.
Qed.

Lemma span_firstn (items : list Re.set_item) (s : str) :
  forallb (Re.in_set items) (firstn (span items s) s) = true.
Proof.
  induction s as [|x t IH]; [reflexivity|].
  simpl. destruct (Re.in_set items x) eqn:E; [|reflexivity].
  simpl. rewrite E, IH. reflexivity.
Qed.

Lemma forallb_impl {A : Type} (f g : A -> bool) (l : list A) :
  (forall x, f x = true -> g x = true) ->
  forallb f l = true -> forallb g l = true.
Proof.
  intros H. rewrite !forallb_forall. intros Hf x Hx. auto.
Qed.

Lemma env_inside (s : str) (n : nat) (r : str) :
  env_step s = Some (n, r) ->
  forall u v z, r = u ++ v -> v <> [] -> fires env_step (v ++ z) = false.
Proof.
  intros H u v z Hr Hv.
  destruct (env_step_Some _ _ _ H) as [x [rest [_ [F [_ ->]]]]].
  destruct u as [|a u].
  - simpl in Hr. subst v. reflexivity.
  - change (py "process.env['" ++ x :: firstn (span env_more rest) rest ++ py "']")
      with (ch "p" :: (py "rocess.env['" ++
              x :: firstn (span env_more rest) rest ++ py "']")) in Hr.
    injection Hr as _ Hr.
    destruct v as [|c v]; [contradiction|].
    destruct (fires env_step ((c :: v) ++ z)) eqn:Q; [|reflexivity].
    exfalso. destruct (fires_env _ Q) as [x' [rest' [Hc _]]].
    injection Hc as Hc _.
    assert (Hall : forallb (fun c => negb (N.eqb c (ch "p")))
                     (py "rocess.env['" ++
                      x :: firstn (span env_more rest) rest ++ py "']") = true).
    { rewrite forallb_app. simpl.
      rewrite (env_more_not_p x (env_first_more x F)). simpl.
      rewrite forallb_app. simpl. rewrite andb_true_r.
      exact (forallb_impl _ _ _ env_more_not_p (span_firstn env_more rest)). }
    assert (Hin : In c (u ++ c :: v))
      by (apply in_or_app; right; left; reflexivity).
    rewrite <- Hr in Hin.
    pose proof (forallb_In _ _ _ Hall Hin) as C.
    rewrite Hc in C. discriminate C.
Qed.

Lemma occurs_weaken (f q : str -> bool) : forall s,
  occurs q s = false -> occurs (fun t => f t && q t) s = false.
Proof.
  induction s as [|c t IH]; simpl; intros H;
    apply orb_false_iff in H as [H1 H2]; rewrite H1, andb_false_r;
    [reflexivity | apply IH; exact H2].
Qed.

Lemma occurs_self (m : step) : forall s,
  occurs (fun t => negb (fires m t) && fires m t) s = false.
Proof.
  induction s as [|c t IH]; simpl; rewrite andb_negb_l; [reflexivity | exact IH].
Qed.

(** A property rule leaves no match of another property rule that it
    did not find there already. *)
Lemma clean_prop_prop (j k : str) (s : str) :
  good_name j = true -> good_name k = true ->
  occurs (fun t => negb (fires (prop_step w j) t) && fires (prop_step w k) t) s
    = false ->
  occurs (fires (prop_step w k)) (rewrite (prop_step w j) s) = false.
Proof.
  intros Hj Hk. apply rewrite_clean.
  - reflexivity.
  - intros s0 n r E u v z Hr Hv.
    destruct (prop_step_Some _ _ _ _ E) as [_ [_ [_ [_ ->]]]].
    destruct (fires (prop_step w k) (v ++ z)) eqn:Q; [|reflexivity].
    exfalso. destruct (fires_prop _ _ Q) as [rest Hq].
    destruct Hq as [Hq _].
    apply (prop_inside j (ch "." :: k) Hj) with (u := u) (v := v) (z := z)
      (rest := rest); auto.
    + left; reflexivity.
    + intros [C|C]; [discriminate C|].
      revert C. apply good_name_not; [exact Hk | reflexivity].
    + rewrite Hq. apply (strip_app (ch "." :: k) rest).
  - intros t _. apply head_prop_prop; assumption.
Qed.

Lemma clean_prop_env (j : str) (s : str) :
  good_name j = true ->
  occurs (fun t => negb (fires (prop_step w j) t) && fires env_step t) s = false ->
  occurs (fires env_step) (rewrite (prop_step w j) s) = false.
Proof.
  intros Hj. apply rewrite_clean.
  - reflexivity.
  - intros s0 n r E u v z Hr Hv.
    destruct (prop_step_Some _ _ _ _ E) as [_ [_ [_ [_ ->]]]].
    destruct (fires env_step (v ++ z)) eqn:Q; [|reflexivity].
    exfalso. destruct (fires_env _ Q) as [x [rest [Hq _]]].
    apply (prop_inside j (py "process.env.") Hj) with (u := u) (v := v) (z := z)
      (rest := x :: rest); auto.
    + simpl. auto 20.
    + simpl. intros C. repeat (destruct C as [C|C]; [discriminate C|]). exact C.
    + rewrite Hq. apply strip_app.
  - intros t _. apply head_prop_env.
Qed.

Lemma clean_env_env (s : str) :
  occurs (fires env_step) (rewrite env_step s) = false.
Proof.
  apply rewrite_clean.
  - reflexivity.
  - intros s0 n r E u v z Hr Hv. exact (env_inside _ _ _ E u v z Hr Hv).
  - exact head_env_env.
  - apply occurs_self.
Qed.

(** *** The scripts in terms of steps *)

Lemma patterns_eq : FixTs4111.patterns = map prop_rule targets.
Proof. vm_compute. reflexivity. Qed.

Lemma targets_good : forallb (fun n => good_name (py n)) targets = true.
Proof. vm_compute. reflexivity. Qed.

Lemma fix_process_env_callable (s : str) :
  FixProcessEnv.fix_process_env w s = rewrite env_step s.
Proof.
  unfold FixProcessEnv.fix_process_env. rewrite env_pattern_eq.
  rewrite sub_rewrite by reflexivity.
  apply rewrite_ext. apply step_of_env_callable.
Qed.

Lemma fix_process_env_template (s : str) :
  FixTs4111.fix_process_env w s = rewrite env_step s.
Proof.
  unfold FixTs4111.fix_process_env. rewrite env_pattern_eq.
  rewrite sub_rewrite by reflexivity.
  apply rewrite_ext. apply step_of_env_template.
Qed.

Lemma sub_prop_rule (n : string) (s : str) :
  good_name (py n) = true ->
  Re.sub w (fst (prop_rule n)) (snd (prop_rule n)) s =
  rewrite (prop_step w (py n)) s.
Proof.
  intros Hg. unfold prop_rule. cbn [fst snd].
  rewrite sub_rewrite by reflexivity.
  apply rewrite_ext. intros t. apply step_of_prop. exact Hg.
Qed.

Lemma fix_object_property_access_names (names : list string) :
  forallb (fun n => good_name (py n)) names = true ->
  forall s,
    FixTs4111.fix_object_property_access w s (map prop_rule names) =
    apply_names w (map py names) s.
Proof.
  unfold FixTs4111.fix_object_property_access, apply_names.
  induction names as [|n names IH]; intros Hg s; [reflexivity|].
  simpl in Hg. apply andb_true_iff in Hg as [Hn Hg].
  cbn [map fold_left]. rewrite sub_prop_rule by exact Hn. apply IH. exact Hg.
Qed.

Lemma transform_steps (s : str) :
  FixTs4111.transform w s =
  apply_names w (map py targets) (rewrite env_step s).
Proof.
  unfold FixTs4111.transform. rewrite patterns_eq.
  rewrite fix_object_property_access_names by exact targets_good.
  rewrite fix_process_env_template. reflexivity.
Qed.

(** *** What a sequence of property rules leaves behind *)

Lemma apply_names_env_clean (names : list str) :
  forallb good_name names = true ->
  forall s, occurs (fires env_step) s = false ->
            occurs (fires env_step) (apply_names w names s) = false.
Proof.
  unfold apply_names.
  induction names as [|j names IH]; intros Hg s H; [exact H|].
  simpl in Hg. apply andb_true_iff in Hg as [Hj Hg].
  simpl. apply IH; [exact Hg|].
  apply clean_prop_env; [exact Hj|]. apply occurs_weaken. exact H.
Qed.

Lemma apply_names_prop_clean (k : str) (names : list str) :
  good_name k = true -> forallb good_name names = true ->
  forall s, occurs (fires (prop_step w k)) s = false ->
            occurs (fires (prop_step w k)) (apply_names w names s) = false.
Proof.
  unfold apply_names. intros Hk.
  induction names as [|j names IH]; intros Hg s H; [exact H|].
  simpl in Hg. apply andb_true_iff in Hg as [Hj Hg].
  simpl. apply IH; [exact Hg|].
  apply clean_prop_prop; [exact Hj | exact Hk |]. apply occurs_weaken. exact H.
Qed.

Lemma apply_names_removes (k : str) (names : list str) :
  forallb good_name names = true -> In k names ->
  forall s, occurs (fires (prop_step w k)) (apply_names w names s) = false.
Proof.
  induction names as [|j names IH]; intros Hg Hin s; [contradiction|].
  simpl in Hg. apply andb_true_iff in Hg as [Hj Hg].
  destruct Hin as [->|Hin].
  - change (apply_names w (k :: names) s)
      with (apply_names w names (rewrite (prop_step w k) s)).
    apply apply_names_prop_clean; [exact Hj | exact Hg |].
    apply clean_prop_prop; [exact Hj | exact Hj | apply occurs_self].
  - change (apply_names w (j :: names) s)
      with (apply_names w names (rewrite (prop_step w j) s)).
    apply IH; assumption.
Qed.

Lemma apply_names_id (names : list str) (s : str) :
  (forall k, In k names -> occurs (fires (prop_step w k)) s = false) ->
  apply_names w names s = s.
Proof.
  unfold apply_names.
  induction names as [|j names IH]; intros H; [reflexivity|].
  simpl. rewrite rewrite_id by (apply H; left; reflexivity).
  apply IH. intros k Hk. apply H. right. exact Hk.
Qed.

Lemma targets_good_names : forallb good_name (map py targets) = true.
Proof. vm_compute. reflexivity. Qed.

End Families.

(** ** Locality of the steps *)

Lemma splits_complete (a : char) : forall s p q,
  s = p ++ a :: q -> In (p, q) (splits a s).
Proof.
  induction s as [|x t IH]; intros p q H.
  - destruct p; discriminate.
  - simpl. apply in_or_app. destruct p as [|y p].
    + injection H as -> ->. left. rewrite N.eqb_refl. left. reflexivity.
    + injection H as -> H. right.
      apply in_map_iff. exists (p, q). split; [reflexivity | auto].
Qed.

Lemma span_app_keep (items : list Re.set_item) (h : char) (b : str) :
  Re.in_set items h = false ->
  forall r, span items (r ++ h :: b) = span items r.
Proof.
  intros Hh. induction r as [|x r IH]; simpl.
  - rewrite Hh. reflexivity.
  - destruct (Re.in_set items x); [rewrite IH|]; reflexivity.
Qed.

Lemma span_app_stop (items : list Re.set_item) (rest : str) :
  match rest with [] => true | c :: _ => negb (Re.in_set items c) end = true ->
  forall a, forallb (Re.in_set items) a = true ->
            span items (a ++ rest) = List.length a.
Proof.
  intros Hr. induction a as [|x a IH]; simpl; intros Ha.
  - destruct rest as [|c rest]; [reflexivity|].
    simpl. apply negb_true_iff in Hr. rewrite Hr. reflexivity.
  - apply andb_true_iff in Ha as [Hx Ha]. rewrite Hx, IH by exact Ha.
    reflexivity.
Qed.

Lemma firstn_app_le {A : Type} (n : nat) (l1 l2 : list A) :
  n <= List.length l1 -> firstn n (l1 ++ l2) = firstn n l1.
Proof.
  intros H. rewrite firstn_app.
  replace (n - List.length l1) with 0 by lia.
  simpl. apply app_nil_r.
Qed.

Section Locality.

Variable w : char -> bool.

(** What follows a text does not change what the property-name step
    does inside it, if it begins with a character outside the name set
    and no occurrence of the prefix runs into it. *)
Lemma env_local (h : char) (b' : str) :
  Re.in_set env_more h = false ->
  (forall p P2 rest',
     p <> [] -> P2 <> [] -> py "process.env." = p ++ P2 ->
     strip P2 (h :: b') = Some rest' -> lower_start rest' = true) ->
  forall p, p <> [] -> env_step (p ++ h :: b') = env_step p.
Proof.
  intros Hh Hstr p Hp. unfold env_step.
  destruct (strip (py "process.env.") p) as [rest|] eqn:E.
  - rewrite (strip_app_Some _ _ (h :: b') _ E).
    destruct rest as [|x rest].
    + simpl app. cbv beta iota.
      destruct (Re.in_set env_first h) eqn:F; [|reflexivity].
      apply env_first_more in F. congruence.
    + simpl app. cbv beta iota. destruct (Re.in_set env_first x); [|reflexivity].
      rewrite span_app_keep by exact Hh.
      rewrite firstn_app_le by apply span_le. reflexivity.
  - destruct (strip (py "process.env.") (p ++ h :: b')) as [rest'|] eqn:E2;
      [|reflexivity].
    destruct (strip_app_None _ _ _ _ E E2) as [P2 [HP [Hne HP2]]].
    pose proof (Hstr p P2 rest' Hp Hne HP HP2) as L.
    destruct rest' as [|x rest']; [reflexivity|].
    unfold lower_start in L. apply negb_true_iff in L.
    cbv beta iota. rewrite L. reflexivity.
Qed.

Lemma prop_local (k : str) (b' : str) :
  good_name k = true ->
  forall p, p <> [] ->
    prop_step w k (p ++ ch "." :: b') = prop_step w k p.
Proof.
  intros Hk p Hp. unfold prop_step.
  destruct (strip (ch "." :: k) p) as [rest|] eqn:E.
  - rewrite (strip_app_Some _ _ (ch "." :: b') _ E).
    destruct rest as [|x rest]; reflexivity.
  - destruct (strip (ch "." :: k) (p ++ ch "." :: b')) as [rest'|] eqn:E2;
      [|reflexivity].
    exfalso.
    destruct (strip_app_None _ _ _ _ E E2) as [P2 [HP [Hne HP2]]].
    destruct P2 as [|c P3]; [contradiction|].
    destruct (strip_head _ _ _ _ HP2) as [t Ht]. injection Ht as Hc _.
    subst c. destruct p as [|c p]; [contradiction|].
    injection HP as _ HP.
    apply (good_name_not (ch ".") k Hk); [reflexivity|].
    rewrite HP. apply in_or_app. right. left. reflexivity.
Qed.

Lemma skipn_app_plus {A : Type} (a l : list A) (n : nat) :
  skipn (List.length a + n) (a ++ l) = skipn n l.
Proof. induction a as [|x a IH]; [reflexivity | exact IH]. Qed.

Lemma skipn_app_exact {A : Type} (a l : list A) :
  skipn (List.length a) (a ++ l) = l.
Proof.
  rewrite <- (Nat.add_0_r (List.length a)). apply (skipn_app_plus a l 0).
Qed.

Lemma firstn_app_exact {A : Type} (a l : list A) :
  firstn (List.length a) (a ++ l) = a.
Proof.
  rewrite firstn_app_le by lia. apply firstn_all.
Qed.

Lemma env_no_straddle_p (b' : str) :
  forall p P2 rest',
    p <> [] -> P2 <> [] -> py "process.env." = p ++ P2 ->
    strip P2 (ch "p" :: b') = Some rest' -> lower_start rest' = true.
Proof.
  intros p P2 rest' Hp HP2 HP Hs. exfalso.
  destruct P2 as [|c P3]; [contradiction|].
  destruct (strip_head _ _ _ _ Hs) as [t Ht]. injection Ht as Hc _. subst c.
  destruct p as [|d p]; [contradiction|].
  injection HP as _ HP.
  apply splits_complete in HP. vm_compute in HP. exact HP.
Qed.

(** Every occurrence of [process.env.NAME] is rewritten, whatever
    surrounds it. *)
Lemma env_occurrence (pre name rest : str) :
  env_name name = true -> ends_name rest = true ->
  rewrite env_step (pre ++ py "process.env." ++ name ++ rest)
  = rewrite env_step pre
    ++ py "process.env['" ++ name ++ py "']" ++ rewrite env_step rest.
Proof.
  intros Hn Hr.
  change (py "process.env." ++ name ++ rest)
    with (ch "p" :: (py "rocess.env." ++ name ++ rest)).
  rewrite rewrite_app_local.
  - f_equal. rewrite rewrite_cons.
    destruct name as [|x name]; [discriminate|].
    unfold env_name in Hn. apply andb_true_iff in Hn as [Hx Hn].
    change (ch "p" :: (py "rocess.env." ++ (x :: name) ++ rest))
      with (py "process.env." ++ x :: name ++ rest).
    rewrite env_step_intro by exact Hx.
    rewrite (span_app_stop env_more rest Hr name Hn).
    rewrite firstn_app_exact.
    change (py "rocess.env." ++ (x :: name) ++ rest)
      with ((py "rocess.env." ++ [x]) ++ name ++ rest).
    change (12 + List.length name)
      with (List.length (py "rocess.env." ++ [x]) + List.length name).
    rewrite skipn_app_plus, skipn_app_exact.
    rewrite <- !app_assoc. cbn [app]. rewrite <- !app_assoc. reflexivity.
  - exact env_step_length.
  - intros u p _ Hp. apply env_local;
      [reflexivity | apply env_no_straddle_p | exact Hp].
Qed.

(** *** A call site

    The text [.NAME(] of a method call: no step fires at any of its
    positions, whatever follows it. *)

Lemma after_name_word (x : char) (rest : str) :
  Re.ascii_word x = true -> after_name w (x :: rest) = false.
Proof.
  intros H. simpl. rewrite (ascii_word_is_word w x H). reflexivity.
Qed.

Lemma after_name_paren (rest : str) : after_name w (ch "(" :: rest) = false.
Proof. reflexivity. Qed.

Lemma site_tail_no_dot (nm : str) :
  good_name nm = true -> ~ In (ch ".") (nm ++ [ch "("]).
Proof.
  intros Hg Hin. apply in_app_or in Hin as [Hin|[Hin|[]]].
  - revert Hin. apply good_name_not; [exact Hg | reflexivity].
  - discriminate Hin.
Qed.

Lemma site_quiet_prop (k nm : str) :
  good_name k = true -> good_name nm = true ->
  forall u p z, ch "." :: nm ++ [ch "("] = u ++ p -> p <> [] ->
                prop_step w k (p ++ z) = None.
Proof.
  intros Hk Hnm u p z Hsite Hp.
  destruct (prop_step w k (p ++ z)) as [[n r]|] eqn:E; [exfalso|reflexivity].
  unfold prop_step in E.
  destruct (strip (ch "." :: k) (p ++ z)) as [rest0|] eqn:S; [|discriminate].
  destruct (after_name w rest0) eqn:A; [|discriminate]. clear E.
  destruct (strip_prefix_cases _ _ _ _ S) as [[P2 HP]|[v2 Hv]].
  - (* the name would contain the parenthesis *)
    change (ch "." :: nm ++ [ch "("]) with ((ch "." :: nm) ++ [ch "("]) in Hsite.
    destruct (suffix_last _ _ _ _ Hsite Hp) as [v' ->].
    assert (Hin : In (ch "(") (ch "." :: k))
      by (rewrite HP, !in_app_iff; simpl; auto).
    destruct Hin as [Hin|Hin]; [discriminate Hin|].
    revert Hin. apply good_name_not; [exact Hk | reflexivity].
  - subst p. destruct u as [|c u].
    + apply (f_equal (@tl char)) in Hsite. simpl in Hsite.
      rewrite <- app_assoc in S.
      rewrite (strip_app (ch "." :: k) (v2 ++ z)) in S. injection S as <-.
      apply app_eq_app in Hsite as [l [[Hnm' Hl]|[Hk' Hl]]].
      * destruct l as [|a l].
        -- simpl in Hl. subst v2. simpl in A. discriminate A.
        -- subst v2. simpl in A.
           assert (Ha : Re.ascii_word a = true).
           { apply (forallb_In _ _ _ (good_name_word _ Hnm)).
             rewrite Hnm'. apply in_or_app. right. left. reflexivity. }
           rewrite (ascii_word_is_word w a Ha) in A. discriminate A.
      * destruct l as [|a l].
        -- simpl in Hl. subst v2. simpl in A. discriminate A.
        -- simpl in Hl. injection Hl as <- Hl.
           apply (good_name_not (ch "(") k Hk); [reflexivity|].
           rewrite Hk'. apply in_or_app. right. left. reflexivity.
    + injection Hsite as _ Hsite.
      apply (site_tail_no_dot nm Hnm).
      rewrite Hsite. apply in_or_app. right. left. reflexivity.
Qed.

Lemma site_quiet_env (nm : str) :
  good_name nm = true ->
  forall u p z, ch "." :: nm ++ [ch "("] = u ++ p -> p <> [] ->
                env_step (p ++ z) = None.
Proof.
  intros Hnm u p z Hsite Hp.
  destruct (env_step (p ++ z)) as [[n r]|] eqn:E; [exfalso|reflexivity].
  destruct (env_step_Some _ _ _ E) as [x [rest [Hs _]]].
  assert (S : strip (py "process.env.") (p ++ z) = Some (x :: rest))
    by (rewrite Hs; apply strip_app).
  destruct (strip_prefix_cases _ _ _ _ S) as [[P2 HP]|[v2 Hv]].
  - change (ch "." :: nm ++ [ch "("]) with ((ch "." :: nm) ++ [ch "("]) in Hsite.
    destruct (suffix_last _ _ _ _ Hsite Hp) as [v' ->].
    assert (Hin : In (ch "(") (py "process.env."))
      by (rewrite HP, !in_app_iff; simpl; auto).
    vm_compute in Hin. intuition discriminate.
  - subst p. destruct u as [|c u]; [discriminate Hsite|].
    injection Hsite as _ Hsite.
    apply (site_tail_no_dot nm Hnm).
    rewrite Hsite. apply in_or_app. right.
    simpl. do 7 right. left. reflexivity.
Qed.

Lemma occurs_suffixes (q : str -> bool) : forall s,
  (forall u p, s = u ++ p -> q p = false) -> occurs q s = false.
Proof.
  induction s as [|c t IH]; intros H.
  - simpl. rewrite (H [] []) by reflexivity. reflexivity.
  - rewrite occurs_cons. rewrite (H [] (c :: t)) by reflexivity.
    apply IH. intros u p ->. apply (H (c :: u) p). reflexivity.
Qed.

(** A step that is local and quiet on the call site rewrites what
    precedes and what follows the site independently and keeps the site. *)
Lemma call_site_step (m : step) (nm pre args : str) :
  (forall p n r, m p = Some (n, r) -> n < List.length p) ->
  (forall p, p <> [] ->
     m (p ++ ch "." :: nm ++ ch "(" :: args) = m p) ->
  (forall u p z, ch "." :: nm ++ [ch "("] = u ++ p -> p <> [] ->
     m (p ++ z) = None) ->
  m [] = None ->
  rewrite m (pre ++ ch "." :: nm ++ ch "(" :: args)
  = rewrite m pre ++ ch "." :: nm ++ ch "(" :: rewrite m args.
Proof.
  intros Hlen Hloc Hquiet Hnil.
  rewrite rewrite_app_local;
    [| exact Hlen | intros u p _ Hp; apply Hloc; exact Hp].
  f_equal.
  replace (ch "." :: nm ++ ch "(" :: args)
    with ((ch "." :: nm ++ [ch "("]) ++ args)
    by (simpl; rewrite <- app_assoc; reflexivity).
  rewrite rewrite_app_local; [| exact Hlen |].
  - rewrite rewrite_id.
    + simpl. rewrite <- app_assoc. reflexivity.
    + apply occurs_suffixes. intros u p Hs. unfold fires.
      destruct p as [|c p]; [rewrite Hnil; reflexivity|].
      rewrite <- (app_nil_r (c :: p)).
      rewrite (Hquiet u (c :: p) [] Hs) by discriminate. reflexivity.
  - intros u p Hs Hp.
    rewrite (Hquiet u p args Hs Hp).
    rewrite <- (app_nil_r p) at 1.
    rewrite (Hquiet u p [] Hs Hp). reflexivity.
Qed.

Lemma env_no_straddle_dot (nm args : str) :
  good_name nm = true -> lower_start nm = true ->
  forall p P2 rest',
    p <> [] -> P2 <> [] -> py "process.env." = p ++ P2 ->
    strip P2 (ch "." :: nm ++ ch "(" :: args) = Some rest' ->
    lower_start rest' = true.
Proof.
  intros Hg Hl p P2 rest' Hp HP2 HP Hs.
  destruct P2 as [|c P3]; [contradiction|].
  destruct (strip_head _ _ _ _ Hs) as [t Ht]. injection Ht as Hc _. subst c.
  simpl in Hs. change (N.eqb (ch ".") (ch ".")) with true in Hs.
  apply splits_complete in HP. vm_compute in HP.
  destruct HP as [HP|[HP|[]]]; injection HP as _ <-.
  - exfalso. apply strip_Some in Hs.
    change ([101; 110; 118; 46]%N ++ rest')
      with (py "env" ++ ch "." :: rest') in Hs.
    destruct (word_split_unique nm (py "env") (ch "(") (ch ".")
                args rest' (good_name_word _ Hg) eq_refl eq_refl eq_refl Hs)
      as [_ [C _]].
    discriminate C.
  - simpl in Hs. injection Hs as <-.
    destruct nm as [|x nm]; [discriminate Hg | exact Hl].
Qed.

Lemma call_site_env (nm pre args : str) :
  good_name nm = true -> lower_start nm = true ->
  rewrite env_step (pre ++ ch "." :: nm ++ ch "(" :: args)
  = rewrite env_step pre ++ ch "." :: nm ++ ch "(" :: rewrite env_step args.
Proof.
  intros Hg Hl. apply call_site_step.
  - exact env_step_length.
  - intros p Hp. apply env_local;
      [reflexivity | apply env_no_straddle_dot; assumption | exact Hp].
  - apply site_quiet_env. exact Hg.
  - reflexivity.
Qed.

Lemma call_site_prop (k nm pre args : str) :
  good_name k = true -> good_name nm = true ->
  rewrite (prop_step w k) (pre ++ ch "." :: nm ++ ch "(" :: args)
  = rewrite (prop_step w k) pre
    ++ ch "." :: nm ++ ch "(" :: rewrite (prop_step w k) args.
Proof.
  intros Hk Hg. apply call_site_step.
  - apply prop_step_length.
  - intros p Hp. apply prop_local; assumption.
  - apply site_quiet_prop; assumption.
  - reflexivity.
Qed.

Lemma call_site_names (names : list str) (nm : str) :
  forallb good_name names = true -> good_name nm = true ->
  forall pre args,
    apply_names w names (pre ++ ch "." :: nm ++ ch "(" :: args)
    = apply_names w names pre
      ++ ch "." :: nm ++ ch "(" :: apply_names w names args.
Proof.
  intros Hn Hg. unfold apply_names.
  induction names as [|k names IH]; intros pre args; [reflexivity|].
  simpl in Hn. apply andb_true_iff in Hn as [Hk Hn].
  simpl. rewrite call_site_prop by assumption. apply IH. exact Hn.
Qed.

(** The text of a call of a targeted name survives the whole rule set
    of [fix-ts4111.py], whatever precedes and follows it. *)
Lemma call_site_preserved (m : string) (pre args : str) :
  In m targets ->
  FixTs4111.transform w (pre ++ py "." ++ py m ++ py "(" ++ args)
  = FixTs4111.transform w pre
    ++ py "." ++ py m ++ py "(" ++ FixTs4111.transform w args.
Proof.
  intros Hin. rewrite !transform_steps.
  assert (Hg : good_name (py m) = true)
    by exact (forallb_In _ _ _ targets_good Hin).
  assert (Hall : forallb (fun n => lower_start (py n)) targets = true)
    by (vm_compute; reflexivity).
  assert (Hl : lower_start (py m) = true)
    by exact (forallb_In _ _ _ Hall Hin).
  change (py "." ++ py m ++ py "(" ++ args)
    with (ch "." :: py m ++ ch "(" :: args).
  rewrite call_site_env by assumption.
  rewrite call_site_names by (exact targets_good_names || exact Hg).
  reflexivity.
Qed.

End Locality.

(** * The rewrite rules: claims *)

Lemma transform_fixpoint (w : char -> bool) (s : str) :
  occurs (fires env_step) s = false ->
  (forall k, In k (map py targets) ->
             occurs (fires (prop_step w k)) s = false) ->
  FixTs4111.transform w s = s.
Proof.
  intros He Hp. rewrite transform_steps.
  rewrite rewrite_id by exact He.
  apply apply_names_id. exact Hp.
Qed.

(** C8. Generic identifier rewrite: [user.email] becomes
    [user['email']]. *)
Theorem user_email_rewritten (unicode_alnum : char -> bool) :
  FixTs4111.transform unicode_alnum (py "user.email") = py "user['email']".
Proof. vm_compute. reflexivity. Qed.

(** C9. The two implementations of [fix_process_env], one with a
    callback and one with a template, compute the same function. *)
Theorem fix_process_env_agree (unicode_alnum : char -> bool) (s : str) :
  FixProcessEnv.fix_process_env unicode_alnum s
  = FixTs4111.fix_process_env unicode_alnum s.
Proof.
  rewrite fix_process_env_callable, fix_process_env_template. reflexivity.
Qed.

Lemma space_before_paren_all (w : char -> bool) :
  forallb (fun m =>
    str_eqb (FixTs4111.transform w (py "obj." ++ py m ++ py " (x)"))
            (py "obj['" ++ py m ++ py "'] (x)")) targets = true.
Proof. vm_compute. reflexivity. Qed.

(** C10. The lookahead inspects only the character right after the
    name: with a space before the parenthesis, [obj.m (x)] is rewritten to
    [obj['m'] (x)] for every targeted name [m]. *)
Theorem whitespace_before_paren (unicode_alnum : char -> bool) (m : string) :
  In m targets ->
  FixTs4111.transform unicode_alnum (py "obj." ++ py m ++ py " (x)")
  = py "obj['" ++ py m ++ py "'] (x)".
Proof.
  intros Hin. apply str_eqb_eq.
  exact (forallb_In _ _ _ (space_before_paren_all unicode_alnum) Hin).
Qed.

Lemma whitespace_before_paren_witness :
  In "method"%string targets
  /\ FixTs4111.transform ascii_only (py "obj." ++ py "method" ++ py " (x)")
     = py "obj['" ++ py "method" ++ py "'] (x)".
Proof.
  assert (H : In "method"%string targets) by (vm_compute; tauto).
  split; [exact H | exact (whitespace_before_paren ascii_only "method" H)].
Defined.

Lemma search_env (w : char -> bool) (s : str) :
  Re.search w (Re.rx "process\.env\.([A-Z_][A-Z0-9_]*)") s
  = occurs (fires env_step) s.
Proof.
  rewrite env_pattern_eq. unfold Re.search.
  rewrite (search_occurs w env_pattern (Re.Template (py "process.env['\1']")))
    by reflexivity.
  apply occurs_ext. intros t. unfold fires.
  rewrite step_of_env_template. reflexivity.
Qed.

Lemma search_prop (w : char -> bool) (n : string) (s : str) :
  good_name (py n) = true ->
  Re.search w (fst (prop_rule n)) s = occurs (fires (prop_step w (py n))) s.
Proof.
  intros Hg. unfold Re.search.
  rewrite (search_occurs w (fst (prop_rule n)) (snd (prop_rule n)))
    by reflexivity.
  apply occurs_ext. intros t. unfold fires, prop_rule. cbn [fst snd].
  rewrite step_of_prop by exact Hg. reflexivity.
Qed.

Lemma process_file_unchanged {world : Type} {os : OS world}
    (transform : str -> str) (err : stream) (st : state world) (p : path)
    (content : str) :
  read_text (st_world st) p = inr content ->
  transform content = content ->
  process_file transform err st p = emit st (EvRead p).
Proof.
  intros Hr Ht. unfold process_file, try_block.
  change (st_world (emit st (EvRead p))) with (st_world st).
  rewrite Hr, Ht, str_eqb_refl. reflexivity.
Qed.

(** C1. Idempotence: for every text, applying the whole rule set of
    either script to its own output gives that output again; a file that
    holds such an output is therefore read and not written. *)
Theorem transform_idempotent (unicode_alnum : char -> bool) (s : str) :
  FixTs4111.transform unicode_alnum (FixTs4111.transform unicode_alnum s)
    = FixTs4111.transform unicode_alnum s
  /\ FixProcessEnv.transform unicode_alnum
       (FixProcessEnv.transform unicode_alnum s)
     = FixProcessEnv.transform unicode_alnum s
  /\ forall (world : Type) (os : OS world) (st : state world) (p : path),
       (read_text (st_world st) p = inr (FixTs4111.transform unicode_alnum s) ->
        process_file (FixTs4111.transform unicode_alnum) Stderr st p
        = emit st (EvRead p))
       /\ (read_text (st_world st) p
             = inr (FixProcessEnv.transform unicode_alnum s) ->
           process_file (FixProcessEnv.transform unicode_alnum) Stdout st p
           = emit st (EvRead p)).
Proof.
  assert (T1 : FixTs4111.transform unicode_alnum
                 (FixTs4111.transform unicode_alnum s)
               = FixTs4111.transform unicode_alnum s).
  { apply transform_fixpoint.
    - rewrite transform_steps.
      apply apply_names_env_clean; [exact targets_good_names|].
      apply clean_env_env.
    - intros k Hk. rewrite transform_steps.
      apply apply_names_removes; [exact targets_good_names | exact Hk]. }
  assert (T2 : FixProcessEnv.transform unicode_alnum
                 (FixProcessEnv.transform unicode_alnum s)
               = FixProcessEnv.transform unicode_alnum s).
  { unfold FixProcessEnv.transform. rewrite !fix_process_env_callable.
    apply rewrite_id. apply clean_env_env. }
  split; [exact T1|]. split; [exact T2|].
  intros world os st p. split; intros Hr.
  - exact (process_file_unchanged _ Stderr st p _ Hr T1).
  - exact (process_file_unchanged _ Stdout st p _ Hr T2).
Qed.

(** C5. Identity on no-match: a text in which the pattern of no rule
    matches anywhere is returned as it is, and the driver, which compares
    the result with the original, then writes nothing. *)
Theorem no_match_identity (unicode_alnum : char -> bool) (s : str) :
  Re.search unicode_alnum (Re.rx "process\.env\.([A-Z_][A-Z0-9_]*)") s = false ->
  (forall rule, In rule FixTs4111.patterns ->
                Re.search unicode_alnum (fst rule) s = false) ->
  FixTs4111.transform unicode_alnum s = s
  /\ forall (world : Type) (os : OS world) (st : state world) (p : path),
       read_text (st_world st) p = inr s ->
       process_file (FixTs4111.transform unicode_alnum) Stderr st p
       = emit st (EvRead p).
Proof.
  intros He Hp.
  assert (T : FixTs4111.transform unicode_alnum s = s).
  { apply transform_fixpoint.
    - rewrite <- search_env with (w := unicode_alnum). exact He.
    - intros k Hk. apply in_map_iff in Hk as [n [<- Hn]].
      pose proof (forallb_In _ _ _ targets_good Hn) as Hg.
      rewrite <- search_prop by exact Hg.
      apply Hp. rewrite patterns_eq. apply in_map. exact Hn. }
  split; [exact T|].
  intros world os st p Hr. apply process_file_unchanged with (content := s);
    assumption.
Qed.

Lemma no_match_identity_witness :
  Re.search ascii_only (Re.rx "process\.env\.([A-Z_][A-Z0-9_]*)")
    (py "obj.method(x)") = false
  /\ (forall rule, In rule FixTs4111.patterns ->
                   Re.search ascii_only (fst rule) (py "obj.method(x)") = false)
  /\ FixTs4111.transform ascii_only (py "obj.method(x)") = py "obj.method(x)".
Proof.
  assert (H1 : Re.search ascii_only (Re.rx "process\.env\.([A-Z_][A-Z0-9_]*)")
                 (py "obj.method(x)") = false) by (vm_compute; reflexivity).
  assert (H2 : forall rule, In rule FixTs4111.patterns ->
                 Re.search ascii_only (fst rule) (py "obj.method(x)") = false).
  { intros rule Hin. apply negb_true_iff.
    revert rule Hin. apply forallb_forall. vm_compute. reflexivity. }
  split; [exact H1|]. split; [exact H2|].
  exact (proj1 (no_match_identity ascii_only (py "obj.method(x)") H1 H2)).
Defined.

(** C3. Call-site exclusion: for every targeted name [m], the text
    [.m(] of a method call is never rewritten, so an input [obj.m(args]
    whose receiver and arguments the rules leave alone is returned
    unchanged. *)
Theorem call_site_unchanged (unicode_alnum : char -> bool) (m : string)
    (obj args : str) :
  In m targets ->
  FixTs4111.transform unicode_alnum obj = obj ->
  FixTs4111.transform unicode_alnum args = args ->
  FixTs4111.transform unicode_alnum (obj ++ py "." ++ py m ++ py "(" ++ args)
  = obj ++ py "." ++ py m ++ py "(" ++ args.
Proof.
  intros Hin Hobj Hargs.
  rewrite call_site_preserved by exact Hin.
  rewrite Hobj, Hargs. reflexivity.
Qed.

Lemma call_site_unchanged_witness :
  In "method"%string targets
  /\ FixTs4111.transform ascii_only (py "obj") = py "obj"
  /\ FixTs4111.transform ascii_only (py "x)") = py "x)"
  /\ FixTs4111.transform ascii_only (py "obj.method(x)") = py "obj.method(x)".
Proof.
  assert (H1 : In "method"%string targets) by (vm_compute; tauto).
  assert (H2 : FixTs4111.transform ascii_only (py "obj") = py "obj")
    by (vm_compute; reflexivity).
  assert (H3 : FixTs4111.transform ascii_only (py "x)") = py "x)")
    by (vm_compute; reflexivity).
  split; [exact H1|]. split; [exact H2|]. split; [exact H3|].
  exact (call_site_unchanged ascii_only "method" (py "obj") (py "x)") H1 H2 H3).
Defined.

(** C4. Property-name rule: every occurrence of [process.env.] followed
    by a name made of uppercase letters, digits and underscores (and not
    continued by such a character) is rewritten to [process.env['NAME']],
    by both implementations and whatever surrounds the occurrence; in
    particular [process.env.API_KEY] becomes [process.env['API_KEY']]. *)
Theorem env_property_rewritten (unicode_alnum : char -> bool)
    (pre name rest : str) :
  env_name name = true ->
  ends_name rest = true ->
  FixProcessEnv.fix_process_env unicode_alnum
      (pre ++ py "process.env." ++ name ++ rest)
    = FixProcessEnv.fix_process_env unicode_alnum pre
      ++ py "process.env['" ++ name ++ py "']"
      ++ FixProcessEnv.fix_process_env unicode_alnum rest
  /\ FixTs4111.fix_process_env unicode_alnum
       (pre ++ py "process.env." ++ name ++ rest)
     = FixTs4111.fix_process_env unicode_alnum pre
       ++ py "process.env['" ++ name ++ py "']"
       ++ FixTs4111.fix_process_env unicode_alnum rest
  /\ FixProcessEnv.transform unicode_alnum (py "process.env.API_KEY")
     = py "process.env['API_KEY']"
  /\ FixTs4111.transform unicode_alnum (py "process.env.API_KEY")
     = py "process.env['API_KEY']".
Proof.
  intros Hn Hr. split; [|split; [|split]].
  - rewrite !fix_process_env_callable. apply env_occurrence; assumption.
  - rewrite !fix_process_env_template. apply env_occurrence; assumption.
  - vm_compute. reflexivity.
  - vm_compute. reflexivity.
Qed.

Lemma env_property_rewritten_witness :
  env_name (py "API_KEY") = true
  /\ ends_name (py ";") = true
  /\ FixTs4111.fix_process_env ascii_only (py "const k = process.env.API_KEY;")
     = py "const k = process.env['API_KEY'];".
Proof.
  assert (H1 : env_name (py "API_KEY") = true) by reflexivity.
  assert (H2 : ends_name (py ";") = true) by reflexivity.
  split; [exact H1|]. split; [exact H2|].
  exact (proj1 (proj2 (env_property_rewritten ascii_only (py "const k = ")
                         (py "API_KEY") (py ";") H1 H2))).
Defined.

(** * The driver *)

Section DriverFacts.

Context {world : Type} {os : OS world}.
Variable transform : str -> str.
Variable err : stream.

Lemma str_eqb_neq (a b : str) : a <> b -> str_eqb a b = false.
Proof.
  intros H. destruct (str_eqb a b) eqn:E; [|reflexivity].
  apply str_eqb_eq in E. contradiction.
Qed.

(** ** [print] *)

Lemma print_returns (st : state world) (to : stream) (msg : message)
    (w : world) :
  print_line (st_world st) to msg = (w, None) ->
  print st to msg
  = ({| st_world := w;
        fixed_count := fixed_count st;
        events := events st ++ [EvPrint to msg];
        raised := raised st |}, None).
Proof. intros H. unfold print. rewrite H. reflexivity. Qed.

Lemma print_raises (st : state world) (to : stream) (msg : message)
    (w : world) (e : exn) :
  print_line (st_world st) to msg = (w, Some e) ->
  print st to msg
  = ({| st_world := w;
        fixed_count := fixed_count st;
        events := events st;
        raised := raised st |}, Some e).
Proof. intros H. unfold print. rewrite H. reflexivity. Qed.

(** ** The [try] block, case by case *)

Lemma try_block_read_error (st : state world) (p : path) (e : exn) :
  read_text (st_world st) p = inl e ->
  try_block transform st p = (emit st (EvRead p), Some e).
Proof.
  intros H. unfold try_block.
  change (st_world (emit st (EvRead p))) with (st_world st).
  rewrite H. reflexivity.
Qed.

Lemma try_block_same (st : state world) (p : path) (content : str) :
  read_text (st_world st) p = inr content ->
  transform content = content ->
  try_block transform st p = (emit st (EvRead p), None).
Proof.
  intros Hr Ht. unfold try_block.
  change (st_world (emit st (EvRead p))) with (st_world st).
  rewrite Hr, Ht, str_eqb_refl. reflexivity.
Qed.

Lemma try_block_write_error (st : state world) (p : path) (content : str)
    (w : world) (e : exn) :
  read_text (st_world st) p = inr content ->
  transform content <> content ->
  write_text (st_world st) p (transform content) = (w, Some e) ->
  try_block transform st p
  = ({| st_world := w;
        fixed_count := fixed_count st;
        events := events st ++ [EvRead p; EvWrite p (transform content)];
        raised := raised st |}, Some e).
Proof.
  intros Hr Hne Hw. unfold try_block.
  change (st_world (emit st (EvRead p))) with (st_world st).
  rewrite Hr, (str_eqb_neq _ _ Hne). simpl negb. cbv iota.
  change (st_world (emit (emit st (EvRead p)) (EvWrite p (transform content))))
    with (st_world st).
  rewrite Hw. unfold emit. simpl. rewrite <- !app_assoc. reflexivity.
Qed.

(** When [write_text] returns, the counter is incremented and the
    [Fixed] line is printed, in this order. *)
Lemma try_block_written (st : state world) (p : path) (content : str)
    (w : world) :
  read_text (st_world st) p = inr content ->
  transform content <> content ->
  write_text (st_world st) p (transform content) = (w, None) ->
  try_block transform st p
  = print {| st_world := w;
             fixed_count := fixed_count st + 1;
             events := events st ++ [EvRead p; EvWrite p (transform content)];
             raised := raised st |}
      Stdout (Fixed p).
Proof.
  intros Hr Hne Hw. unfold try_block.
  change (st_world (emit st (EvRead p))) with (st_world st).
  rewrite Hr, (str_eqb_neq _ _ Hne). simpl negb. cbv iota.
  change (st_world (emit (emit st (EvRead p)) (EvWrite p (transform content))))
    with (st_world st).
  rewrite Hw. unfold emit. simpl. rewrite <- !app_assoc. reflexivity.
Qed.

(** ** One file *)

Lemma handler_block (st : state world) (p : path) (e : exn) :
  let st' := uncaught (print st err (ErrorProcessing p e)) in
  fixed_count st' = fixed_count st
  /\ (events st' = events st
      \/ events st' = events st ++ [EvPrint err (ErrorProcessing p e)]).
Proof.
  unfold print.
  destruct (print_line (st_world st) err (ErrorProcessing p e)) as [w [e'|]];
    simpl; auto.
Qed.

(** What one file adds to the log, and to the counter. *)
Lemma process_file_block (st : state world) (p : path) :
  exists block,
    file_block err p block
    /\ events (process_file transform err st p) = events st ++ block
    /\ fixed_count st <= fixed_count (process_file transform err st p)
    /\ fixed_count (process_file transform err st p)
       <= fixed_count st + List.length (writes block).
Proof.
  unfold process_file.
  destruct (read_text (st_world st) p) as [e|content] eqn:Hr.
  - rewrite (try_block_read_error st p e Hr).
    destruct (handler_block (emit st (EvRead p)) p e) as [Hc [He|He]];
      cbv zeta in Hc, He; rewrite Hc, He; simpl.
    + exists [EvRead p]. split; [constructor|]. simpl. split; [reflexivity|lia].
    + exists [EvRead p; EvPrint err (ErrorProcessing p e)].
      split; [constructor|]. rewrite <- app_assoc. simpl.
      split; [reflexivity|lia].
  - destruct (list_eq_dec N.eq_dec (transform content) content) as [Ht|Hne].
    + rewrite (try_block_same st p content Hr Ht). simpl.
      exists [EvRead p]. split; [constructor|]. simpl. split; [reflexivity|lia].
    + destruct (write_text (st_world st) p (transform content)) as [w [e|]] eqn:Hw.
      * rewrite (try_block_write_error st p content w e Hr Hne Hw).
        match goal with
        | |- context [uncaught (print ?s err (ErrorProcessing p e))] =>
            destruct (handler_block s p e) as [Hc [He|He]]
        end; cbv zeta in Hc, He; rewrite Hc, He; simpl.
        -- exists [EvRead p; EvWrite p (transform content)].
           split; [constructor|]. simpl. split; [reflexivity|lia].
        -- exists [EvRead p; EvWrite p (transform content);
                   EvPrint err (ErrorProcessing p e)].
           split; [constructor|]. rewrite <- app_assoc. simpl.
           split; [reflexivity|lia].
      * rewrite (try_block_written st p content w Hr Hne Hw).
        destruct (print_line w Stdout (Fixed p)) as [w' [e|]] eqn:Hp;
          match goal with
          | |- context [print ?s Stdout (Fixed p)] =>
              first [ rewrite (print_raises s Stdout (Fixed p) w' e Hp)
                    | rewrite (print_returns s Stdout (Fixed p) w' Hp) ]
          end;
          cbn [fixed_count events raised st_world].
        -- match goal with
           | |- context [uncaught (print ?s err (ErrorProcessing p e))] =>
               destruct (handler_block s p e) as [Hc [He|He]]
           end; cbv zeta in Hc, He; rewrite Hc, He; simpl.
           ++ exists [EvRead p; EvWrite p (transform content)].
              split; [constructor|]. simpl. split; [reflexivity|lia].
           ++ exists [EvRead p; EvWrite p (transform content);
                      EvPrint err (ErrorProcessing p e)].
              split; [constructor|]. rewrite <- app_assoc. simpl.
              split; [reflexivity|lia].
        -- simpl.
           exists [EvRead p; EvWrite p (transform content);
                   EvPrint Stdout (Fixed p)].
           split; [constructor|]. rewrite <- app_assoc. simpl.
           split; [reflexivity|lia].
Qed.

(** A file whose read or write raises, when the error line is printed. *)
Lemma process_file_raises (st : state world) (p : path) (e : exn)
    (w w' : world) (evs : list event) :
  raises transform st p e w evs ->
  print_line w err (ErrorProcessing p e) = (w', None) ->
  process_file transform err st p
  = {| st_world := w';
       fixed_count := fixed_count st;
       events := events st ++ evs ++ [EvPrint err (ErrorProcessing p e)];
       raised := raised st |}.
Proof.
  intros [e0 Hr | content e0 w0 Hr Hne Hw] Hp; unfold process_file.
  - rewrite (try_block_read_error st p e0 Hr).
    rewrite (print_returns (emit st (EvRead p)) _ _ w' Hp). simpl.
    rewrite <- app_assoc. reflexivity.
  - rewrite (try_block_write_error st p content w0 e0 Hr Hne Hw).
    match goal with
    | |- context [print ?s err (ErrorProcessing p e0)] =>
        rewrite (print_returns s _ _ w' Hp)
    end.
    simpl. rewrite <- app_assoc. reflexivity.
Qed.

(** ** The loop *)

Lemma run_files_raised (files : list path) (st : state world) (e : exn) :
  raised st = Some e -> run_files transform err files st = st.
Proof. intros H. destruct files; simpl; [|rewrite H]; reflexivity. Qed.

Lemma run_files_cons (p : path) (files : list path) (st : state world) :
  raised st = None ->
  run_files transform err (p :: files) st
  = run_files transform err files (process_file transform err st p).
Proof. intros H. simpl. rewrite H. reflexivity. Qed.

Lemma run_files_app (l1 l2 : list path) : forall st,
  run_files transform err (l1 ++ l2) st
  = run_files transform err l2 (run_files transform err l1 st).
Proof.
  induction l1 as [|p l1 IH]; intros st; [reflexivity|].
  simpl. destruct (raised st) as [e|] eqn:E.
  - symmetry. apply run_files_raised with (e := e). exact E.
  - apply IH.
Qed.

Lemma reads_app (a b : list event) : reads (a ++ b) = reads a ++ reads b.
Proof. apply flat_map_app. Qed.

Lemma writes_app (a b : list event) : writes (a ++ b) = writes a ++ writes b.
Proof. apply flat_map_app. Qed.

(** The log of the loop: one block for each file of the list up to the
    one, if any, at which an exception leaves the loop. *)
Lemma run_files_blocks (files : list path) : forall st,
  exists done rest blocks,
    files = done ++ rest
    /\ Forall2 (file_block err) done blocks
    /\ events (run_files transform err files st)
       = events st ++ List.concat blocks
    /\ (raised (run_files transform err files st) = None -> rest = [])
    /\ fixed_count st <= fixed_count (run_files transform err files st)
    /\ fixed_count (run_files transform err files st)
       <= fixed_count st + List.length (writes (List.concat blocks)).
Proof.
  induction files as [|p files IH]; intros st.
  - exists [], [], []. simpl. rewrite app_nil_r.
    repeat split; try constructor; lia.
  - destruct (raised st) as [e|] eqn:E.
    + rewrite (run_files_raised _ st e E).
      exists [], (p :: files), []. simpl. rewrite app_nil_r.
      repeat split; try constructor; try lia. congruence.
    + rewrite (run_files_cons p files st E).
      destruct (process_file_block st p) as [block [Hb [He [Hc1 Hc2]]]].
      destruct (IH (process_file transform err st p))
        as [done [rest [blocks [Hf [Hbs [Hes [Hr [Hd1 Hd2]]]]]]]].
      exists (p :: done), rest, (block :: blocks).
      split; [simpl; rewrite Hf; reflexivity|].
      split; [constructor; assumption|].
      split; [rewrite Hes, He; simpl; rewrite app_assoc; reflexivity|].
      split; [exact Hr|].
      simpl. rewrite writes_app, length_app. lia.
Qed.

Lemma block_reads (p : path) (block : list event) :
  file_block err p block -> reads block = [p].
Proof. intros []; reflexivity. Qed.

Lemma blocks_reads (files : list path) (blocks : list (list event)) :
  Forall2 (file_block err) files blocks -> reads (List.concat blocks) = files.
Proof.
  induction 1 as [|p block files blocks Hb _ IH]; [reflexivity|].
  simpl. rewrite reads_app, IH, (block_reads p block Hb). reflexivity.
Qed.


Lemma blocks_touched (files : list path) (blocks : list (list event))
    (e : event) (q : path) :
  Forall2 (file_block err) files blocks ->
  In e (List.concat blocks) -> touched e = Some q -> In q files.
Proof.
  induction 1 as [|p block files blocks Hb _ IH]; [intros []|].
  simpl. rewrite in_app_iff. intros [Hin|Hin] Hq.
  - left. destruct Hb; simpl in Hin;
      repeat (destruct Hin as [<-|Hin]; [simpl in Hq; congruence|]);
      contradiction.
  - right. exact (IH Hin Hq).
Qed.

Lemma blocks_prints (files : list path) (blocks : list (list event))
    (to : stream) (msg : message) :
  Forall2 (file_block err) files blocks ->
  In (EvPrint to msg) (List.concat blocks) ->
  (to = err /\ exists p e, In p files /\ msg = ErrorProcessing p e)
  \/ (to = Stdout /\ exists p, In p files /\ msg = Fixed p).
Proof.
  induction 1 as [|p block files blocks Hb _ IH]; [intros []|].
  simpl. rewrite in_app_iff. intros [Hin|Hin].
  - destruct Hb; simpl in Hin;
      repeat (destruct Hin as [Hin|Hin]; [try discriminate Hin|]);
      try contradiction; injection Hin as <- <-.
    + left. split; [reflexivity|]. exists p, e. simpl. auto.
    + right. split; [reflexivity|]. exists p. simpl. auto.
    + left. split; [reflexivity|]. exists p, e. simpl. auto.
  - destruct (IH Hin) as [[Ht [q [e [Hq Hm]]]]|[Ht [q [Hq Hm]]]].
    + left. split; [exact Ht|]. exists q, e. simpl. auto.
    + right. split; [exact Ht|]. exists q. simpl. auto.
Qed.

(** ** [main] *)

(** After the loop, [main] prints the count, unless an exception has
    left the loop; the [print] of the count may raise as well. *)
Lemma main_end (w : world) :
  let st := run_files transform err (ts_files w)
              {| st_world := w; fixed_count := 0; events := [];
                 raised := None |} in
  fixed_count (main transform err w) = fixed_count st
  /\ ((raised (main transform err w) = None
       /\ raised st = None
       /\ events (main transform err w)
          = events st ++ [EvPrint Stdout (FixedFiles (fixed_count st))])
      \/ ((exists e, raised (main transform err w) = Some e)
          /\ events (main transform err w) = events st)).
Proof.
  intros st. unfold main. fold st.
  destruct (raised st) as [e|] eqn:E.
  - split; [reflexivity|]. right. split; [exists e; exact E | reflexivity].
  - unfold print.
    destruct (print_line (st_world st) Stdout (FixedFiles (fixed_count st)))
      as [w' [e|]]; simpl.
    + split; [reflexivity|]. right. split; [exists e|]; reflexivity.
    + split; [reflexivity|]. left. auto.
Qed.

(** The log of a run. *)
Lemma main_blocks (w : world) :
  exists done rest blocks,
    ts_files w = done ++ rest
    /\ Forall2 (file_block err) done blocks
    /\ ((raised (main transform err w) = None
         /\ rest = []
         /\ events (main transform err w)
            = List.concat blocks
              ++ [EvPrint Stdout
                    (FixedFiles (fixed_count (main transform err w)))])
        \/ ((exists e, raised (main transform err w) = Some e)
            /\ events (main transform err w) = List.concat blocks))
    /\ fixed_count (main transform err w)
       <= List.length (writes (List.concat blocks)).
Proof.
  destruct (run_files_blocks (ts_files w)
              {| st_world := w; fixed_count := 0; events := [];
                 raised := None |})
    as [done [rest [blocks [Hf [Hb [He [Hr [_ Hc]]]]]]]].
  destruct (main_end w) as [Hm Hcases]. cbv zeta in Hm, Hcases.
  exists done, rest, blocks.
  split; [exact Hf|]. split; [exact Hb|]. split.
  - destruct Hcases as [[H1 [H2 H3]]|[H1 H3]].
    + left. split; [exact H1|]. split; [exact (Hr H2)|].
      rewrite H3, He, Hm. reflexivity.
    + right. split; [exact H1|]. rewrite H3, He. reflexivity.
  - rewrite Hm. simpl in Hc. exact Hc.
Qed.

End DriverFacts.
(** C2. Failure isolation, which fails for [fix-process-env.py]: its
    handler prints the path of the file on the standard output, and
    nothing catches what that [print] raises.  In a directory where
    reading the first candidate raises and the standard output cannot
    encode its name, the run of [fix-process-env.py] ends at that file
    with the exception of the handler: no error line is printed, the next
    candidate is never read and keeps its text, and no count is printed.
    [fix-ts4111.py], whose handler prints on the error stream, reports the
    error, processes the remaining candidates and prints the count. *)
Theorem handler_print_escapes :
  let m := {| disk := odd_tree (inl "bad utf-8"%string);
              console := strict_stdout |} in
  let p := ["src"%string; odd_name] in
  let z := ["src"; "z.ts"]%string in
  let next := ["next.config.ts"%string] in
  ts_files m = [p; z; next]
  /\ read_text m p = inl "bad utf-8"%string
  /\ (let st := FixProcessEnvMain.main ascii_only m in
      raised st = Some "UnicodeEncodeError"%string
      /\ events st = [EvRead p]
      /\ fixed_count st = 0
      /\ read_text (st_world st) z = inr (py "process.env.API_KEY"))
  /\ (let st := FixTs4111Main.main ascii_only m in
      raised st = None
      /\ events st
         = [EvRead p;
            EvPrint Stderr (ErrorProcessing p "bad utf-8"%string);
            EvRead z; EvWrite z (py "process.env['API_KEY']");
            EvPrint Stdout (Fixed z);
            EvRead next;
            EvPrint Stderr
              (ErrorProcessing next "No such file or directory"%string);
            EvPrint Stdout (FixedFiles 1)]).
Proof. vm_compute. repeat split. Qed.

(** * Discovery on a directory tree *)

Lemma node_induction (P : node -> Prop) :
  (forall text readonly, P (File text readonly)) ->
  (forall entries, Forall (fun e => P (snd e)) entries -> P (Dir entries)) ->
  forall n, P n.
Proof.
  intros HF HD. fix IH 1. intros [text readonly|entries].
  - apply HF.
  - apply HD. induction entries as [|[name child] rest IHr].
    + constructor.
    + constructor; [apply IH | exact IHr].
Qed.

Lemma fnmatch_literal (suf : list ascii) :
  wildcard_free suf = true ->
  forall name, fnmatch_list suf name = true <-> name = suf.
Proof.
  induction suf as [|a suf IH]; intros Hw name.
  - simpl. destruct name; split; congruence.
  - simpl in Hw. apply andb_true_iff in Hw as [Ha Hw].
    apply negb_true_iff, orb_false_iff in Ha as [Hs Hq].
    simpl. rewrite Hs, Hq. simpl.
    destruct name as [|b name]; [split; discriminate|].
    rewrite andb_true_iff, (IH Hw name), Ascii.eqb_eq.
    split; [intros [-> ->]; reflexivity | intros H; injection H; auto].
Qed.

Lemma fnmatch_star (pat : list ascii) : forall name,
  fnmatch_list ("*"%char :: pat) name = true <->
  exists stem rest, name = stem ++ rest /\ fnmatch_list pat rest = true.
Proof.
  induction name as [|b name IH].
  - simpl. rewrite orb_false_r. split.
    + intros H. exists [], []. auto.
    + intros [stem [rest [H1 H2]]].
      symmetry in H1. apply app_eq_nil in H1 as [_ ->]. exact H2.
  - change (fnmatch_list ("*"%char :: pat) (b :: name))
      with (fnmatch_list pat (b :: name)
            || fnmatch_list ("*"%char :: pat) name).
    rewrite orb_true_iff, IH. split.
    + intros [H|[stem [rest [-> H]]]].
      * exists [], (b :: name). auto.
      * exists (b :: stem), rest. auto.
    + intros [[|c stem] [rest [H1 H2]]].
      * left. simpl in H1. rewrite H1. exact H2.
      * right. injection H1 as -> ->. exists stem, rest. auto.
Qed.

Lemma list_ascii_of_string_app (a b : string) :
  list_ascii_of_string (a ++ b) = list_ascii_of_string a ++ list_ascii_of_string b.
Proof. induction a as [|c a IH]; simpl; [reflexivity | rewrite IH; reflexivity]. Qed.

(** A pattern [*SUFFIX] matches the names that end with the suffix. *)
Lemma fnmatch_suffix (suffix name : string) :
  wildcard_free (list_ascii_of_string suffix) = true ->
  fnmatch (String "*" suffix) name = true <->
  exists stem, name = (stem ++ suffix)%string.
Proof.
  intros Hw. unfold fnmatch.
  change (list_ascii_of_string (String "*" suffix))
    with ("*"%char :: list_ascii_of_string suffix).
  rewrite fnmatch_star. split.
  - intros [stem [rest [H1 H2]]].
    apply (fnmatch_literal _ Hw) in H2. subst rest.
    exists (string_of_list_ascii stem).
    rewrite <- (string_of_list_ascii_of_string name), H1.
    rewrite <- (string_of_list_ascii_of_string
                  (string_of_list_ascii stem ++ suffix)).
    rewrite list_ascii_of_string_app, list_ascii_of_string_of_list_ascii.
    reflexivity.
  - intros [stem ->]. exists (list_ascii_of_string stem), (list_ascii_of_string suffix).
    split; [apply list_ascii_of_string_app|].
    apply fnmatch_literal; [exact Hw | reflexivity].
Qed.

Lemma entry_at_file_inv text readonly q n' :
  entry_at (File text readonly) q n' -> q = [].
Proof. intros H. inversion H. reflexivity. Qed.

Lemma entry_at_dir_inv entries q n' :
  entry_at (Dir entries) q n' ->
  q = [] \/ exists name child p0,
              q = name :: p0 /\ In (name, child) entries
              /\ entry_at child p0 n'.
Proof.
  intros H. inversion H; subst; [left; reflexivity|].
  right. eauto 6.
Qed.

(** The walk lists the entries below a directory whose name matches. *)
Lemma walk_spec (pat : string) : forall n here p,
  In p (walk pat here n) <->
  exists rel name n',
    p = here ++ rel ++ [name] /\ entry_at n (rel ++ [name]) n'
    /\ fnmatch pat name = true.
Proof.
  induction n as [text readonly|entries IH] using node_induction;
    intros here p.
  - simpl. split; [intros []|].
    intros [rel [name [n' [_ [H _]]]]].
    apply entry_at_file_inv in H. destruct rel; discriminate.
  - simpl. rewrite in_app_iff, in_map_iff, in_flat_map. split.
    + intros [[[name child] [<- Hin]]|[[name child] [Hin Hp]]].
      * apply filter_In in Hin as [Hin Hm]. simpl in *.
        exists [], name, child. repeat split; [|exact Hm].
        apply at_child with (child := child); [exact Hin | constructor].
      * simpl in Hp.
        rewrite Forall_forall in IH.
        apply (IH (name, child) Hin) in Hp
          as [rel [nm [n' [-> [Hat Hm]]]]].
        exists (name :: rel), nm, n'. repeat split; [| |exact Hm].
        -- rewrite <- app_assoc. reflexivity.
        -- apply at_child with (child := child); assumption.
    + intros [rel [name [n' [-> [Hat Hm]]]]].
      apply entry_at_dir_inv in Hat
        as [Hq|[nm0 [child [p0 [Hq [Hin Hsub]]]]]];
        [destruct rel; discriminate|].
      destruct rel as [|r rel].
      * left. simpl in Hq. injection Hq as <- <-.
        exists (name, child). split; [reflexivity|].
        apply filter_In. split; [exact Hin | exact Hm].
      * right. simpl in Hq. injection Hq as <- <-.
        exists (r, child). split; [exact Hin|].
        rewrite Forall_forall in IH.
        apply (IH (r, child) Hin). simpl.
        exists rel, name, n'. repeat split; [|exact Hsub|exact Hm].
        rewrite <- app_assoc. reflexivity.
Qed.

Lemma tree_rglob_spec (t : node) (root : path) (pat : string) (p : path) :
  In p (tree_rglob t root pat) <->
  exists d rel name n',
    lookup t root = Some d /\ p = root ++ rel ++ [name]
    /\ entry_at d (rel ++ [name]) n' /\ fnmatch pat name = true.
Proof.
  unfold tree_rglob. destruct (lookup t root) as [d|].
  - rewrite walk_spec. split.
    + intros [rel [name [n' [H1 [H2 H3]]]]]. exists d, rel, name, n'. auto.
    + intros [d0 [rel [name [n' [H0 [H1 [H2 H3]]]]]]].
      injection H0 as <-. exists rel, name, n'. auto.
  - split; [intros []|].
    intros [d [rel [name [n' [H _]]]]]. discriminate.
Qed.

Lemma main_touches {world : Type} {os : OS world} (transform : str -> str)
    (err : stream) (w : world) (e : event) (q : path) :
  In e (events (main transform err w)) -> touched e = Some q ->
  In q (ts_files w).
Proof.
  intros Hin Hq.
  destruct (main_blocks transform err w)
    as [done [rest [blocks [Hf [Hb [[[_ [_ He]]|[_ He]] _]]]]]];
    rewrite He in Hin; rewrite Hf; apply in_or_app; left.
  - apply in_app_or in Hin as [Hin|[<-|[]]]; [|discriminate Hq].
    exact (blocks_touched err _ _ e q Hb Hin Hq).
  - exact (blocks_touched err _ _ e q Hb Hin Hq).
Qed.

(** C7. Discovery: the candidates are the results of the three recursive
    enumerations followed by [next.config.ts], which is always there; on a
    directory tree they are exactly the entries below [src] whose name
    ends in [.ts] or [.tsx], those below [scripts] whose name ends in
    [.ts], and [next.config.ts]; and a run reads and writes candidates
    only. *)
Theorem discovery (t : node) (p : path) :
  (forall (world : Type) (os : OS world) (w : world),
     ts_files w
     = rglob w ["src"%string] "*.ts" ++ rglob w ["src"%string] "*.tsx"
       ++ rglob w ["scripts"%string] "*.ts" ++ [["next.config.ts"%string]])
  /\ (In p (ts_files t) <->
      p = ["next.config.ts"%string]
      \/ exists root suffix d rel name n',
           In (root, suffix)
              [(["src"], ".ts"); (["src"], ".tsx"); (["scripts"], ".ts")]%string
           /\ lookup t root = Some d
           /\ entry_at d (rel ++ [name]) n'
           /\ (exists stem, name = (stem ++ suffix)%string)
           /\ p = root ++ rel ++ [name])
  /\ (forall (world : Type) (os : OS world) (transform : str -> str)
        (err : stream) (w : world) (e : event) (q : path),
        In e (events (main transform err w)) -> touched e = Some q ->
        In q (ts_files w)).
Proof.
  split; [|split].
  - intros world os w. unfold ts_files. rewrite <- !app_assoc. reflexivity.
  - unfold ts_files. cbn [rglob tree_fs].
    rewrite !in_app_iff, !tree_rglob_spec. split.
    + intros [[[H|H]|H]|[<-|[]]]; [| | |left; reflexivity];
        destruct H as [d [rel [name [n' [H0 [-> [H1 H2]]]]]]];
        apply fnmatch_suffix in H2; try reflexivity; right.
      * exists ["src"%string], ".ts"%string, d, rel, name, n'.
        simpl. auto 10.
      * exists ["src"%string], ".tsx"%string, d, rel, name, n'.
        simpl. auto 10.
      * exists ["scripts"%string], ".ts"%string, d, rel, name, n'.
        simpl. auto 10.
    + intros [->|[root [suffix [d [rel [name [n' [Hin [H0 [H1 [H2 ->]]]]]]]]]]].
      * right. left. reflexivity.
      * left. destruct Hin as [E|[E|[E|[]]]]; injection E as <- <-.
        -- left. left. exists d, rel, name, n'.
           repeat split; try assumption.
           apply (fnmatch_suffix ".ts"); [reflexivity | exact H2].
        -- left. right. exists d, rel, name, n'.
           repeat split; try assumption.
           apply (fnmatch_suffix ".tsx"); [reflexivity | exact H2].
        -- right. exists d, rel, name, n'.
           repeat split; try assumption.
           apply (fnmatch_suffix ".ts"); [reflexivity | exact H2].
  - intros world os transform err w e q. apply main_touches.
Qed.

(** * Further properties of the rewrite rules *)

(** X1. The output of either script's rule set contains no match of
    any of its patterns: nothing that a rule targets is left behind. *)
Theorem transform_output_clean (unicode_alnum : char -> bool) (s : str) :
  Re.search unicode_alnum (Re.rx "process\.env\.([A-Z_][A-Z0-9_]*)")
    (FixTs4111.transform unicode_alnum s) = false
  /\ (forall rule, In rule FixTs4111.patterns ->
        Re.search unicode_alnum (fst rule)
          (FixTs4111.transform unicode_alnum s) = false)
  /\ Re.search unicode_alnum (Re.rx "process\.env\.([A-Z_][A-Z0-9_]*)")
       (FixProcessEnv.transform unicode_alnum s) = false.
Proof.
  split; [|split].
  - rewrite search_env, transform_steps.
    apply apply_names_env_clean; [exact targets_good_names|].
    apply clean_env_env.
  - intros rule Hin. rewrite patterns_eq in Hin.
    apply in_map_iff in Hin as [n [<- Hn]].
    rewrite search_prop by exact (forallb_In _ _ _ targets_good Hn).
    rewrite transform_steps.
    apply apply_names_removes; [exact targets_good_names|].
    apply in_map. exact Hn.
  - rewrite search_env. unfold FixProcessEnv.transform.
    rewrite fix_process_env_callable. apply clean_env_env.
Qed.

(** ** A rewritten text is longer *)

Section Growth.

Variable m : step.
Hypothesis m_inside : forall s n r, m s = Some (n, r) -> n < List.length s.
Hypothesis m_longer : forall s n r, m s = Some (n, r) -> n + 1 < List.length r.

Lemma rewrite_grows : forall s,
  List.length s <= List.length (rewrite m s)
  /\ (List.length (rewrite m s) = List.length s ->
      occurs (fires m) s = false).
Proof.
  induction s as [s IH] using (well_founded_induction
    (well_founded_ltof _ (@List.length char))).
  unfold ltof in IH. destruct s as [|c t].
  { split; [auto|]. intros _. simpl. unfold fires.
    destruct (m []) as [[n r]|] eqn:E; [|reflexivity].
    apply m_inside in E. simpl in E. lia. }
  rewrite rewrite_cons, occurs_cons. unfold fires at 1.
  destruct (m (c :: t)) as [[n r]|] eqn:E.
  - pose proof (m_inside _ _ _ E) as Hin. pose proof (m_longer _ _ _ E) as Hl.
    simpl in Hin.
    assert (Hs : List.length (skipn n t) < List.length (c :: t))
      by (rewrite length_skipn; simpl; lia).
    destruct (IH _ Hs) as [Hge _].
    rewrite length_skipn in Hge. rewrite length_app. simpl. split; lia.
  - assert (Ht : List.length t < List.length (c :: t)) by (simpl; lia).
    destruct (IH _ Ht) as [Hge Heq]. simpl. split; [lia|].
    intros H. apply Heq. lia.
Qed.

End Growth.

Section GrowthOfRules.

Variable w : char -> bool.

Lemma prop_step_longer (j s : str) (n : nat) (r : str) :
  prop_step w j s = Some (n, r) -> n + 1 < List.length r.
Proof.
  intros H. destruct (prop_step_Some _ _ _ _ _ H) as [rest [_ [_ [-> ->]]]].
  unfold prop_replacement. rewrite !length_app. simpl. lia.
Qed.

Lemma env_step_longer (s : str) (n : nat) (r : str) :
  env_step s = Some (n, r) -> n + 1 < List.length r.
Proof.
  intros H. destruct (env_step_Some _ _ _ H) as [x [rest [_ [_ [-> ->]]]]].
  rewrite length_app. simpl. rewrite length_app, length_firstn. simpl.
  pose proof (span_le env_more rest). lia.
Qed.

Lemma apply_names_grows (names : list str) : forall s,
  List.length s <= List.length (apply_names w names s).
Proof.
  unfold apply_names. induction names as [|j names IH]; intros s; [simpl; lia|].
  simpl. etransitivity; [|apply IH].
  apply (rewrite_grows (prop_step w j) (prop_step_length w j)
           (prop_step_longer j)).
Qed.

Lemma apply_names_same (names : list str) : forall s,
  apply_names w names s = s ->
  forall k, In k names -> occurs (fires (prop_step w k)) s = false.
Proof.
  induction names as [|j names IH]; intros s H k Hk; [contradiction|].
  change (apply_names w (j :: names) s)
    with (apply_names w names (rewrite (prop_step w j) s)) in H.
  pose proof (rewrite_grows (prop_step w j) (prop_step_length w j)
                (prop_step_longer j) s) as [Hge Heq].
  pose proof (apply_names_grows names (rewrite (prop_step w j) s)) as Hge2.
  rewrite H in Hge2.
  assert (Hj : occurs (fires (prop_step w j)) s = false) by (apply Heq; lia).
  rewrite (rewrite_id _ _ Hj) in H.
  destruct Hk as [<-|Hk]; [exact Hj | exact (IH s H k Hk)].
Qed.

End GrowthOfRules.

(** X2. The comparison of [main] is exact: the rule set of
    [fix-ts4111.py] returns a text as it is precisely when no pattern
    matches anywhere in it, and it never returns a shorter text. *)
Theorem unchanged_iff_no_match (unicode_alnum : char -> bool) (s : str) :
  (FixTs4111.transform unicode_alnum s = s <->
   Re.search unicode_alnum (Re.rx "process\.env\.([A-Z_][A-Z0-9_]*)") s = false
   /\ forall rule, In rule FixTs4111.patterns ->
                   Re.search unicode_alnum (fst rule) s = false)
  /\ List.length s <= List.length (FixTs4111.transform unicode_alnum s).
Proof.
  pose proof (rewrite_grows env_step env_step_length env_step_longer s)
    as [Hge Heq].
  pose proof (apply_names_grows unicode_alnum (map py targets)
                (rewrite env_step s)) as Hge2.
  split; [|rewrite transform_steps; lia].
  split.
  - intros H. rewrite transform_steps in H.
    rewrite H in Hge2.
    assert (He : occurs (fires env_step) s = false) by (apply Heq; lia).
    rewrite (rewrite_id _ _ He) in H.
    split; [rewrite search_env; exact He|].
    intros rule Hin. rewrite patterns_eq in Hin.
    apply in_map_iff in Hin as [n [<- Hn]].
    rewrite search_prop by exact (forallb_In _ _ _ targets_good Hn).
    apply (apply_names_same unicode_alnum (map py targets) s H).
    apply in_map. exact Hn.
  - intros [He Hp]. apply transform_fixpoint.
    + rewrite <- search_env with (w := unicode_alnum). exact He.
    + intros k Hk. apply in_map_iff in Hk as [n [<- Hn]].
      rewrite <- search_prop by exact (forallb_In _ _ _ targets_good Hn).
      apply Hp. rewrite patterns_eq. apply in_map. exact Hn.
Qed.

(** ** The rules are local *)

Section Separators.

Variable w : char -> bool.
Variable c : char.
Hypothesis c_sep : separator c = true.

Lemma separator_facts :
  Re.is_word w c = false /\ Re.ascii_word c = false
  /\ c <> ch "." /\ c <> ch "(".
Proof.
  unfold separator in c_sep.
  apply andb_true_iff in c_sep as [H Hp]. apply andb_true_iff in H as [H Hd].
  apply andb_true_iff in H as [Hlt Hw].
  apply negb_true_iff in Hw, Hd, Hp.
  unfold Re.is_word. rewrite Hlt.
  repeat split; try assumption; apply N.eqb_neq; assumption.
Qed.

Lemma after_name_separator (b : str) : after_name w (c :: b) = true.
Proof.
  destruct separator_facts as [Hw [_ [_ Hp]]].
  simpl. rewrite Hw. apply N.eqb_neq in Hp. rewrite Hp. reflexivity.
Qed.

Lemma separator_not_in (P : str) :
  forallb (fun x => Re.ascii_word x || N.eqb x (ch ".")) P = true ->
  ~ In c P.
Proof.
  intros H Hin. destruct separator_facts as [_ [Hw [Hd _]]].
  pose proof (forallb_In _ _ _ H Hin) as C. simpl in C.
  rewrite Hw in C. apply N.eqb_eq in C. contradiction.
Qed.

Lemma env_separator (b : str) (p : str) :
  p <> [] -> env_step (p ++ c :: b) = env_step p.
Proof.
  destruct separator_facts as [_ [Hw _]].
  apply env_local.
  - destruct (Re.in_set env_more c) eqn:E; [|reflexivity].
    apply env_more_word in E. congruence.
  - intros p0 P2 rest' Hp HP2 HP Hs. exfalso.
    destruct P2 as [|d P3]; [contradiction|].
    destruct (strip_head _ _ _ _ Hs) as [t Ht]. injection Ht as Hc _. subst d.
    apply (separator_not_in (py "process.env.")); [reflexivity|].
    rewrite HP. apply in_or_app. right. left. reflexivity.
Qed.

Lemma prop_separator (k b p : str) :
  good_name k = true -> p <> [] ->
  prop_step w k (p ++ c :: b) = prop_step w k p.
Proof.
  intros Hk Hp. unfold prop_step.
  destruct (strip (ch "." :: k) p) as [rest|] eqn:E.
  - rewrite (strip_app_Some _ _ (c :: b) _ E).
    destruct rest as [|x rest]; [|reflexivity].
    simpl app. rewrite after_name_separator. reflexivity.
  - destruct (strip (ch "." :: k) (p ++ c :: b)) as [rest'|] eqn:E2;
      [|reflexivity].
    exfalso.
    destruct (strip_app_None _ _ _ _ E E2) as [P2 [HP [Hne HP2]]].
    destruct P2 as [|d P3]; [contradiction|].
    destruct (strip_head _ _ _ _ HP2) as [t Ht]. injection Ht as Hc _. subst d.
    apply (separator_not_in (ch "." :: k)).
    + simpl. apply forallb_forall. intros x Hx.
      rewrite (forallb_In _ _ _ (good_name_word _ Hk) Hx). reflexivity.
    + rewrite HP. apply in_or_app. right. left. reflexivity.
Qed.

Lemma rewrite_separator (m : step) (a b : str) :
  (forall p n r, m p = Some (n, r) -> n < List.length p) ->
  (forall p, p <> [] -> m (p ++ c :: b) = m p) ->
  m (c :: b) = None ->
  rewrite m (a ++ c :: b) = rewrite m a ++ c :: rewrite m b.
Proof.
  intros Hlen Hloc Hc.
  rewrite rewrite_app_local;
    [| exact Hlen | intros u p _ Hp; apply Hloc; exact Hp].
  rewrite (rewrite_cons m c b), Hc. reflexivity.
Qed.

Lemma env_rewrite_separator (a b : str) :
  rewrite env_step (a ++ c :: b)
  = rewrite env_step a ++ c :: rewrite env_step b.
Proof.
  apply rewrite_separator.
  - exact env_step_length.
  - intros p Hp. apply env_separator. exact Hp.
  - destruct (env_step (c :: b)) as [[n r]|] eqn:E; [exfalso|reflexivity].
    destruct (env_step_Some _ _ _ E) as [x [rest [Hs _]]].
    apply (separator_not_in (py "process.env.")); [reflexivity|].
    injection Hs as -> _. left. reflexivity.
Qed.

Lemma prop_rewrite_separator (k a b : str) :
  good_name k = true ->
  rewrite (prop_step w k) (a ++ c :: b)
  = rewrite (prop_step w k) a ++ c :: rewrite (prop_step w k) b.
Proof.
  intros Hk. apply rewrite_separator.
  - apply prop_step_length.
  - intros p Hp. apply prop_separator; assumption.
  - destruct (prop_step w k (c :: b)) as [[n r]|] eqn:E; [exfalso|reflexivity].
    destruct (prop_step_Some _ _ _ _ _ E) as [rest [Hs _]].
    destruct separator_facts as [_ [_ [Hd _]]].
    injection Hs as Hs _. contradiction.
Qed.

Lemma apply_names_separator (names : list str) :
  forallb good_name names = true ->
  forall a b,
    apply_names w names (a ++ c :: b)
    = apply_names w names a ++ c :: apply_names w names b.
Proof.
  unfold apply_names.
  induction names as [|k names IH]; intros Hn a b; [reflexivity|].
  simpl in Hn. apply andb_true_iff in Hn as [Hk Hn].
  simpl. rewrite prop_rewrite_separator by exact Hk. apply IH. exact Hn.
Qed.

End Separators.

(** X3. The rules are local: text on either side of a separator (an
    ASCII character other than a word character, a dot or an opening
    parenthesis; a newline or a space, say) is rewritten independently of
    the other side, by both scripts. *)
Theorem transform_local (unicode_alnum : char -> bool) (c : char)
    (a b : str) :
  separator c = true ->
  FixTs4111.transform unicode_alnum (a ++ c :: b)
    = FixTs4111.transform unicode_alnum a
      ++ c :: FixTs4111.transform unicode_alnum b
  /\ FixProcessEnv.transform unicode_alnum (a ++ c :: b)
     = FixProcessEnv.transform unicode_alnum a
       ++ c :: FixProcessEnv.transform unicode_alnum b.
Proof.
  intros Hc. split.
  - rewrite !transform_steps.
    rewrite (env_rewrite_separator unicode_alnum c Hc).
    apply apply_names_separator; [exact Hc | exact targets_good_names].
  - unfold FixProcessEnv.transform. rewrite !fix_process_env_callable.
    apply (env_rewrite_separator unicode_alnum c Hc).
Qed.

Lemma transform_local_witness :
  separator 10%N = true
  /\ FixTs4111.transform ascii_only
       (py "a.name" ++ 10%N :: py "process.env.X.q")
     = py "a['name']" ++ 10%N :: py "process.env['X']['q']".
Proof.
  assert (H : separator 10%N = true) by reflexivity.
  split; [exact H|].
  etransitivity;
    [exact (proj1 (transform_local ascii_only 10%N (py "a.name")
                     (py "process.env.X.q") H))|].
  vm_compute. reflexivity.
Defined.

(** ** What the callback receives *)

Lemma span_skipn (items : list Re.set_item) (s : str) :
  match skipn (span items s) s with
  | [] => true
  | c :: _ => negb (Re.in_set items c)
  end = true.
Proof.
  induction s as [|x t IH]; [reflexivity|].
  simpl. destruct (Re.in_set items x) eqn:E; [exact IH|].
  simpl. rewrite E. reflexivity.
Qed.

(** X4. Every match of the pattern of [fix_process_env] starts with
    [process.env.] followed by a name of [[A-Z_][A-Z0-9_]*] that the
    next character does not continue; group 1 is that name, so the
    callback [replace_match] never formats [None]. *)
Theorem env_match_groups (unicode_alnum : char -> bool)
    (prev : option char) (s : str) (m : Re.match_obj) :
  Re.match_here unicode_alnum (Re.rx "process\.env\.([A-Z_][A-Z0-9_]*)")
    prev s = Some m ->
  exists name rest,
    s = py "process.env." ++ name ++ rest
    /\ env_name name = true /\ ends_name rest = true
    /\ Re.group m 0 = Some (py "process.env." ++ name)
    /\ Re.group m 1 = Some name
    /\ FixProcessEnv.replace_match m = py "process.env['" ++ name ++ py "']".
Proof.
  rewrite env_pattern_eq. unfold Re.match_here. rewrite run_env.
  destruct (strip (py "process.env.") s) as [[|x rest0]|] eqn:E;
    try discriminate.
  destruct (Re.in_set env_first x) eqn:F; [|discriminate].
  intros H. injection H as <-.
  pose proof (env_group1 s rest0 (span env_more rest0) x E) as G.
  exists (x :: firstn (span env_more rest0) rest0),
         (skipn (span env_more rest0) rest0).
  apply strip_Some in E.
  split; [|split; [|split; [|split; [|split]]]].
  - rewrite E. simpl. rewrite firstn_skipn. reflexivity.
  - unfold env_name. rewrite F. apply span_firstn.
  - apply span_skipn.
  - unfold Re.group. cbn [Re.m_end Re.m_string]. rewrite E. reflexivity.
  - exact G.
  - unfold FixProcessEnv.replace_match. cbn [Nat.add] in G |- *.
    rewrite G. reflexivity.
Qed.

Lemma env_match_groups_witness :
  let s := py "process.env.API_KEY;" in
  let m := {| Re.m_string := s; Re.m_end := 19;
              Re.m_marks := [(1, 19); (0, 12)] |} in
  Re.match_here ascii_only (Re.rx "process\.env\.([A-Z_][A-Z0-9_]*)") None s
    = Some m
  /\ exists name rest,
       s = py "process.env." ++ name ++ rest
       /\ env_name name = true /\ ends_name rest = true
       /\ Re.group m 0 = Some (py "process.env." ++ name)
       /\ Re.group m 1 = Some name
       /\ FixProcessEnv.replace_match m
          = py "process.env['" ++ name ++ py "']".
Proof.
  intros s m.
  assert (H : Re.match_here ascii_only
                (Re.rx "process\.env\.([A-Z_][A-Z0-9_]*)") None s = Some m)
    by reflexivity.
  split; [exact H | exact (env_match_groups ascii_only None s m H)].
Defined.

(** * Further properties of the driver *)

(** X5. The log of a run is one block per candidate, in discovery
    order, up to the candidate, if any, at which an exception leaves the
    loop: each of these candidates is read exactly once, in order, and its
    block is its read alone, its read and an error line, or its read and
    one write with a [Fixed] line, an error line or no line.  A run from
    which no exception escapes has a block for every candidate and ends
    with the line of the count; a run that ends with an exception prints
    no count. *)
Theorem log_shape {world : Type} {os : OS world} (transform : str -> str)
    (err : stream) (w : world) :
  exists done rest blocks,
    ts_files w = done ++ rest
    /\ Forall2 (file_block err) done blocks
    /\ reads (events (main transform err w)) = done
    /\ ((raised (main transform err w) = None
         /\ rest = []
         /\ events (main transform err w)
            = List.concat blocks
              ++ [EvPrint Stdout
                    (FixedFiles (fixed_count (main transform err w)))])
        \/ ((exists e, raised (main transform err w) = Some e)
            /\ events (main transform err w) = List.concat blocks)).
Proof.
  destruct (main_blocks transform err w)
    as [done [rest [blocks [Hf [Hb [Hcases _]]]]]].
  exists done, rest, blocks.
  split; [exact Hf|]. split; [exact Hb|]. split; [|exact Hcases].
  destruct Hcases as [[_ [_ He]]|[_ He]]; rewrite He.
  - rewrite reads_app, (blocks_reads err _ _ Hb). simpl. apply app_nil_r.
  - exact (blocks_reads err _ _ Hb).
Qed.


(** X7. [fix-process-env.py] prints every line on standard output;
    [fix-ts4111.py] prints the error lines, and only them, on the error
    stream. *)
Theorem output_streams {world : Type} {os : OS world}
    (unicode_alnum : char -> bool) (w : world) (to : stream) (msg : message) :
  (In (EvPrint to msg) (events (FixProcessEnvMain.main unicode_alnum w)) ->
   to = Stdout)
  /\ (In (EvPrint to msg) (events (FixTs4111Main.main unicode_alnum w)) ->
      (to = Stderr <-> exists p e, msg = ErrorProcessing p e)).
Proof.
  split; intros Hin.
  - unfold FixProcessEnvMain.main in Hin.
    destruct (main_blocks (FixProcessEnv.transform unicode_alnum) Stdout w)
      as [done [rest [blocks [_ [Hb [Hcases _]]]]]].
    assert (H : In (EvPrint to msg) (List.concat blocks) \/ to = Stdout).
    { destruct Hcases as [[_ [_ He]]|[_ He]]; rewrite He in Hin.
      - apply in_app_or in Hin as [Hin|[Hin|[]]]; [left; exact Hin|].
        injection Hin as <- _. right. reflexivity.
      - left. exact Hin. }
    destruct H as [H|H]; [|exact H].
    destruct (blocks_prints Stdout _ _ to msg Hb H) as [[Ht _]|[Ht _]];
      exact Ht.
  - unfold FixTs4111Main.main in Hin.
    destruct (main_blocks (FixTs4111.transform unicode_alnum) Stderr w)
      as [done [rest [blocks [_ [Hb [Hcases _]]]]]].
    assert (H : In (EvPrint to msg) (List.concat blocks)
                \/ (to = Stdout /\ exists n, msg = FixedFiles n)).
    { destruct Hcases as [[_ [_ He]]|[_ He]]; rewrite He in Hin.
      - apply in_app_or in Hin as [Hin|[Hin|[]]]; [left; exact Hin|].
        injection Hin as <- <-. right. split; [reflexivity|]. eexists.
        reflexivity.
      - left. exact Hin. }
    destruct H as [H|[-> [n ->]]].
    + destruct (blocks_prints Stderr _ _ to msg Hb H)
        as [[Ht [p [e [_ Hm]]]]|[Ht [p [_ Hm]]]]; subst.
      * split; [intros _; exists p, e; reflexivity | reflexivity].
      * split; [discriminate | intros [p0 [e0 C]]; discriminate C].
    + split; [discriminate | intros [p0 [e0 C]]; discriminate C].
Qed.

(** X13. What the handler makes of a failure.  When reading or writing
    a candidate raises and the error line is printed, the error is in the
    log with the path of the file, the counter is as it was and the loop
    goes on with the remaining candidates from there: if no exception
    leaves the run, each of them is read and the log ends with the line
    of the count.  When the [print] of the error line raises, the run ends
    there with that exception: nothing more is read, written or
    printed. *)
Theorem handler_outcome {world : Type} {os : OS world}
    (transform : str -> str) (err : stream) (w : world)
    (before after : list path) (p : path) (e : exn) (w' w'' : world)
    (evs : list event) (r : option exn) :
  let st := run_files transform err before
              {| st_world := w; fixed_count := 0; events := [];
                 raised := None |} in
  ts_files w = before ++ p :: after ->
  raised st = None ->
  raises transform st p e w' evs ->
  print_line w' err (ErrorProcessing p e) = (w'', r) ->
  match r with
  | None =>
      let st' := {| st_world := w'';
                    fixed_count := fixed_count st;
                    events := events st ++ evs
                              ++ [EvPrint err (ErrorProcessing p e)];
                    raised := None |} in
      process_file transform err st p = st'
      /\ In (EvPrint err (ErrorProcessing p e))
            (events (main transform err w))
      /\ fixed_count (main transform err w)
         = fixed_count (run_files transform err after st')
      /\ (raised (main transform err w) = None ->
          (forall q, In q after -> In (EvRead q) (events (main transform err w)))
          /\ exists evs',
               events (main transform err w)
               = evs' ++ [EvPrint Stdout
                            (FixedFiles (fixed_count (main transform err w)))])
  | Some e' =>
      main transform err w
      = {| st_world := w'';
           fixed_count := fixed_count st;
           events := events st ++ evs;
           raised := Some e' |}
  end.
Proof.
  intros st Hfiles Hst Hr Hp.
  assert (Hrun : run_files transform err (ts_files w)
                   {| st_world := w; fixed_count := 0; events := [];
                      raised := None |}
                 = run_files transform err after
                     (process_file transform err st p)).
  { rewrite Hfiles, run_files_app. fold st.
    apply run_files_cons. exact Hst. }
  destruct r as [e'|].
  - assert (Hpf : process_file transform err st p
                  = {| st_world := w'';
                       fixed_count := fixed_count st;
                       events := events st ++ evs;
                       raised := Some e' |}).
    { unfold process_file.
      destruct Hr as [e0 Hr | content e0 w0 Hr Hne Hw].
      - rewrite (try_block_read_error transform st p e0 Hr).
        rewrite (print_raises (emit st (EvRead p)) _ _ w'' e' Hp).
        reflexivity.
      - rewrite (try_block_write_error transform st p content w0 e0 Hr Hne Hw).
        match goal with
        | |- context [print ?s err (ErrorProcessing p e0)] =>
            rewrite (print_raises s _ _ w'' e' Hp)
        end.
        reflexivity. }
    unfold main. rewrite Hrun, Hpf.
    match goal with
    | |- context [run_files transform err after ?s] =>
        rewrite (run_files_raised transform err after s e' eq_refl)
    end.
    reflexivity.
  - intros st'.
    assert (Hpf : process_file transform err st p = st').
    { rewrite (process_file_raises transform err st p e w' w'' evs Hr Hp).
      unfold st'. rewrite Hst. reflexivity. }
    rewrite Hpf in Hrun.
    destruct (main_end transform err w) as [Hc Hcases].
    cbv zeta in Hc, Hcases. rewrite Hrun in Hc, Hcases.
    destruct (run_files_blocks transform err after st')
      as [done [rest [blocks [Hf [Hb [He [Hrest _]]]]]]].
    split; [exact Hpf|]. split; [|split; [exact Hc|]].
    + assert (Hin : In (EvPrint err (ErrorProcessing p e))
                      (events (run_files transform err after st'))).
      { rewrite He. apply in_or_app. left. simpl.
        apply in_or_app. right. apply in_or_app. right. left. reflexivity. }
      destruct Hcases as [[_ [_ H]]|[_ H]]; rewrite H;
        [apply in_or_app; left|]; exact Hin.
    + intros Hnone.
      destruct Hcases as [[_ [H2 H]]|[[e' H1] _]]; [|congruence].
      split.
      * intros q Hq. rewrite H, He.
        apply in_or_app. left. apply in_or_app. right.
        pose proof (Hrest H2) as ->. rewrite app_nil_r in Hf. subst done.
        clear - Hb Hq. induction Hb as [|x block l bl Hx _ IH]; [contradiction|].
        simpl. apply in_or_app. destruct Hq as [<-|Hq].
        -- left. destruct Hx; left; reflexivity.
        -- right. exact (IH Hq).
      * eexists. rewrite H, Hc. reflexivity.
Qed.

Lemma handler_outcome_witness :
  let m := {| disk := demo; console := strict_stdout |} in
  let tr := FixTs4111.transform ascii_only in
  let before := [["src"; "a.ts"]; ["src"; "lib"; "d.ts"]]%string in
  let p := ["src"; "lib"; "c.tsx"]%string in
  let after := [["next.config.ts"]]%string in
  let st := run_files tr Stderr before
              {| st_world := m; fixed_count := 0; events := [];
                 raised := None |} in
  ts_files m = before ++ p :: after
  /\ raised st = None
  /\ raises tr st p "bad utf-8"%string (st_world st) [EvRead p]
  /\ print_line (st_world st) Stderr (ErrorProcessing p "bad utf-8"%string)
     = (st_world st, None)
  /\ In (EvPrint Stderr (ErrorProcessing p "bad utf-8"%string))
        (events (FixTs4111Main.main ascii_only m)).
Proof.
  intros m tr before p after st.
  assert (H1 : ts_files m = before ++ p :: after)
    by (vm_compute; reflexivity).
  assert (H2 : raised st = None) by (vm_compute; reflexivity).
  assert (H3 : raises tr st p "bad utf-8"%string (st_world st) [EvRead p])
    by (apply read_raises; vm_compute; reflexivity).
  assert (H4 : print_line (st_world st) Stderr
                 (ErrorProcessing p "bad utf-8"%string)
               = (st_world st, None)) by (vm_compute; reflexivity).
  split; [exact H1|]. split; [exact H2|]. split; [exact H3|].
  split; [exact H4|].
  exact (proj1 (proj2 (handler_outcome tr Stderr m before after p
                         "bad utf-8"%string (st_world st) (st_world st)
                         [EvRead p] None H1 H2 H3 H4))).
Defined.

(** * A run on a directory tree *)

Lemma find_entry_update (name : string) (f : node -> exn + node) :
  forall entries child child',
    find_entry name entries = Some child -> f child = inr child' ->
    exists entries',
      update_entry name f entries = Some (inr entries')
      /\ find_entry name entries' = Some child'
      /\ (forall other, other <> name ->
            find_entry other entries' = find_entry other entries)
      /\ (shape child' = shape child ->
          map (fun e => (fst e, shape (snd e))) entries'
          = map (fun e => (fst e, shape (snd e))) entries).
Proof.
  induction entries as [|[k n] rest IH]; intros child child' Hf Hc;
    [discriminate|].
  simpl in *. destruct (String.eqb_spec k name) as [->|Hk].
  - injection Hf as ->. rewrite Hc.
    exists ((name, child') :: rest). simpl. rewrite String.eqb_refl.
    split; [reflexivity|]. split; [reflexivity|]. split.
    + intros other Ho. apply not_eq_sym in Ho.
      apply String.eqb_neq in Ho. rewrite Ho. reflexivity.
    + intros Hs. rewrite Hs. reflexivity.
  - destruct (IH child child' Hf Hc) as [rest' [Hu [Hfind [Hother Hshape]]]].
    rewrite Hu. exists ((k, n) :: rest'). simpl.
    apply String.eqb_neq in Hk. rewrite Hk.
    split; [reflexivity|]. split; [exact Hfind|]. split.
    + intros other Ho. destruct (String.eqb k other); [reflexivity|].
      apply Hother. exact Ho.
    + intros Hs. rewrite (Hshape Hs). reflexivity.
Qed.

Lemma find_entry_update_error (name : string) (f : node -> exn + node) :
  forall entries child e,
    find_entry name entries = Some child -> f child = inl e ->
    update_entry name f entries = Some (inl e).
Proof.
  induction entries as [|[k n] rest IH]; intros child e Hf Hc; [discriminate|].
  simpl in *. destruct (String.eqb k name).
  - injection Hf as ->. rewrite Hc. reflexivity.
  - rewrite (IH child e Hf Hc). reflexivity.
Qed.

(** Writing an existing, writable file replaces its text and changes
    nothing else in the tree. *)
Lemma write_node_file (content : str) : forall p t text,
  stat t p = Some (Some (text, None)) ->
  exists t',
    write_node p content t = inr t'
    /\ stat t' p = Some (Some (inr content, None))
    /\ (forall q, q <> p -> stat t' q = stat t q)
    /\ shape t' = shape t.
Proof.
  unfold stat.
  induction p as [|name p IH]; intros t text H.
  - simpl in H. destruct t as [x ro|es]; [|discriminate].
    injection H as -> ->. exists (File (inr content) None).
    simpl. repeat split.
    intros q Hq. destruct q; [contradiction | reflexivity].
  - simpl in H. destruct t as [x ro|es]; [discriminate|].
    destruct (find_entry name es) as [child|] eqn:Hf; [|discriminate].
    destruct (IH child text H) as [child' [Hw [Hs [Hframe Hshape]]]].
    destruct (find_entry_update name (write_node p content) es child child'
                Hf Hw) as [es' [Hu [Hfind [Hother Hmap]]]].
    exists (Dir es'). simpl. rewrite Hu, Hfind.
    split; [reflexivity|]. split; [exact Hs|]. split.
    + intros [|nm q] Hq; [reflexivity|]. simpl.
      destruct (string_dec nm name) as [->|Hn].
      * rewrite Hfind, Hf. apply Hframe. congruence.
      * rewrite (Hother nm Hn). reflexivity.
    + rewrite (Hmap Hshape). reflexivity.
Qed.

Lemma write_node_readonly (content : str) : forall p t text e,
  stat t p = Some (Some (text, Some e)) ->
  write_node p content t = inl e.
Proof.
  unfold stat.
  induction p as [|name p IH]; intros t text e H.
  - simpl in H. destruct t as [x ro|es]; [|discriminate].
    injection H as -> ->. reflexivity.
  - simpl in H. destruct t as [x ro|es]; [discriminate|].
    destruct (find_entry name es) as [child|] eqn:Hf; [|discriminate].
    simpl.
    rewrite (find_entry_update_error name (write_node p content) es child e
               Hf (IH child text e H)).
    reflexivity.
Qed.

Lemma read_text_stat (t : node) (p : path) :
  tree_read_text t p
  = match stat t p with
    | Some (Some (text, _)) => text
    | Some None => inl "Is a directory"%string
    | None => inl "No such file or directory"%string
    end.
Proof.
  unfold tree_read_text, stat.
  destruct (lookup t p) as [[text ro|es]|]; reflexivity.
Qed.

Lemma read_text_inr (t : node) (p : path) (content : str) :
  tree_read_text t p = inr content ->
  exists readonly, stat t p = Some (Some (inr content, readonly)).
Proof.
  rewrite read_text_stat.
  destruct (stat t p) as [[[text ro]|]|]; try discriminate.
  intros ->. exists ro. reflexivity.
Qed.





Lemma is_candidate_cons (p : path) (files : list path) (q : path) :
  is_candidate (p :: files) q
  = is_candidate files q || (if path_eq_dec q p then true else false).
Proof.
  unfold is_candidate.
  destruct (in_dec path_eq_dec q (p :: files)) as [Hin|Hn];
    destruct (in_dec path_eq_dec q files) as [Hf|Hf];
    destruct (path_eq_dec q p) as [Hp|Hp]; try reflexivity; exfalso.
  - destruct Hin as [Hin|Hin]; [apply Hp; symmetry; exact Hin | exact (Hf Hin)].
  - apply Hn. right. exact Hf.
  - apply Hn. right. exact Hf.
  - apply Hn. left. symmetry. exact Hp.
Qed.

Section RunOnTree.

Variable transform : str -> str.
Hypothesis transform_twice : forall s, transform (transform s) = transform s.
Variable err : stream.

Lemma after_run_twice (a b : bool) s :
  after_run transform a (after_run transform b s)
  = after_run transform (a || b) s.
Proof.
  destruct s as [[[[e|c] [e'|]]|]|]; try (destruct a, b; reflexivity).
  destruct a, b; simpl; try reflexivity. rewrite transform_twice. reflexivity.
Qed.

Lemma after_run_false s : after_run transform false s = s.
Proof. destruct s as [[[[e|c] [e'|]]|]|]; reflexivity. Qed.

(** [print] leaves the disk and the counter as they are. *)
Lemma print_machine (st : state machine) (to : stream) (msg : message) :
  st_world (fst (print st to msg)) = st_world st
  /\ fixed_count (fst (print st to msg)) = fixed_count st.
Proof.
  unfold print. cbn [print_line machine_os].
  destruct (console (st_world st) to msg); split; reflexivity.
Qed.

Lemma uncaught_fst (r : state machine * option exn) :
  st_world (uncaught r) = st_world (fst r)
  /\ fixed_count (uncaught r) = fixed_count (fst r).
Proof. destruct r as [st [e|]]; split; reflexivity. Qed.

(** The disk and the counter after a file are those the [try] block
    leaves, whatever the handler does. *)
Lemma process_file_try (st : state machine) (p : path) :
  st_world (process_file transform err st p)
  = st_world (fst (try_block transform st p))
  /\ fixed_count (process_file transform err st p)
     = fixed_count (fst (try_block transform st p)).
Proof.
  unfold process_file.
  destruct (try_block transform st p) as [st1 [e|]]; [|split; reflexivity].
  destruct (uncaught_fst (print st1 err (ErrorProcessing p e))) as [-> ->].
  exact (print_machine st1 err (ErrorProcessing p e)).
Qed.

Lemma write_text_readonly (m : machine) (p : path) (content : str)
    (text : exn + str) (e : exn) :
  stat (disk m) p = Some (Some (text, Some e)) ->
  write_text m p content = (m, Some e).
Proof.
  intros Hs. cbn [write_text os_fs machine_os machine_fs].
  rewrite (write_node_readonly _ _ _ _ _ Hs). reflexivity.
Qed.

(** What processing one file does to the disk and to the counter. *)
Lemma process_file_tree (st : state machine) (p : path) :
  (forall q,
     stat (disk (st_world (process_file transform err st p))) q
     = after_run transform (if path_eq_dec q p then true else false)
         (stat (disk (st_world st)) q))
  /\ shape (disk (st_world (process_file transform err st p)))
     = shape (disk (st_world st))
  /\ console (st_world (process_file transform err st p))
     = console (st_world st)
  /\ fixed_count (process_file transform err st p)
     = fixed_count st
       + (if needs_fix transform (disk (st_world st)) p then 1 else 0)
  /\ (needs_fix transform (disk (st_world st)) p = false ->
      st_world (process_file transform err st p) = st_world st).
Proof.
  destruct (process_file_try st p) as [-> ->]. unfold needs_fix.
  destruct (read_text (st_world st) p) as [e|content] eqn:Hr.
  - rewrite (try_block_read_error (os := machine_os) transform st p e Hr). simpl.
    cbn [read_text os_fs machine_os machine_fs] in Hr. rewrite read_text_stat in Hr.
    split; [|split; [reflexivity|split; [reflexivity|]]].
    + intros q. destruct (path_eq_dec q p) as [->|_].
      * destruct (stat (disk (st_world st)) p) as [[[[e0|c] ro]|]|];
          try reflexivity. discriminate Hr.
      * apply eq_sym, after_run_false.
    + destruct (stat (disk (st_world st)) p) as [[[[e0|c] [e'|]]|]|];
        try discriminate Hr; split; auto; lia.
  - destruct (read_text_inr _ _ _ Hr) as [ro Hs]. rewrite Hs.
    destruct (list_eq_dec N.eq_dec (transform content) content) as [Ht|Hne].
    + rewrite (try_block_same (os := machine_os) transform st p content Hr Ht). simpl.
      rewrite Ht, str_eqb_refl.
      split; [|split; [reflexivity|split; [reflexivity|]]].
      * intros q. destruct (path_eq_dec q p) as [->|_].
        -- rewrite Hs. destruct ro; simpl; [reflexivity|rewrite Ht; reflexivity].
        -- apply eq_sym, after_run_false.
      * destruct ro; simpl; split; auto; lia.
    + rewrite (str_eqb_neq _ _ Hne). destruct ro as [e|].
      * rewrite (try_block_write_error (os := machine_os) transform st p content _ e Hr Hne
                   (write_text_readonly _ p (transform content) _ e Hs)).
        simpl.
        split; [|split; [reflexivity|split; [reflexivity|]]].
        -- intros q. destruct (path_eq_dec q p) as [->|_].
           ++ rewrite Hs. reflexivity.
           ++ apply eq_sym, after_run_false.
        -- split; auto; lia.
      * destruct (write_node_file (transform content) _ _ _ Hs)
          as [t' [Hw [Hp [Hframe Hshape]]]].
        assert (Hw' : write_text (st_world st) p (transform content)
                      = ({| disk := t'; console := console (st_world st) |},
                         None)).
        { cbn [write_text os_fs machine_os machine_fs]. rewrite Hw. reflexivity. }
        rewrite (try_block_written (os := machine_os) transform st p content _ Hr Hne Hw').
        match goal with
        | |- context [print ?s Stdout (Fixed p)] =>
            destruct (print_machine s Stdout (Fixed p)) as [-> ->]
        end.
        simpl.
        split; [|split; [exact Hshape|split; [reflexivity|]]].
        -- intros q. destruct (path_eq_dec q p) as [->|Hq].
           ++ rewrite Hp, Hs. reflexivity.
           ++ rewrite (Hframe q Hq). apply eq_sym, after_run_false.
        -- split; [reflexivity | discriminate].
Qed.

(** The loop on a disk.  [done] are the files it processed. *)
Lemma run_files_tree (files : list path) : forall st : state machine,
  exists done rest,
    files = done ++ rest
    /\ reads (events (run_files transform err files st))
       = reads (events st) ++ done
    /\ (raised (run_files transform err files st) = None -> rest = [])
    /\ (forall q,
          stat (disk (st_world (run_files transform err files st))) q
          = after_run transform (is_candidate done q)
              (stat (disk (st_world st)) q))
    /\ shape (disk (st_world (run_files transform err files st)))
       = shape (disk (st_world st))
    /\ console (st_world (run_files transform err files st))
       = console (st_world st)
    /\ (NoDup files ->
        fixed_count (run_files transform err files st)
        = fixed_count st
          + List.length
              (filter (needs_fix transform (disk (st_world st))) done)).
Proof.
  induction files as [|p files IH]; intros st.
  - exists [], []. simpl. rewrite app_nil_r.
    repeat split; try reflexivity; [|lia].
    intros q. apply eq_sym, after_run_false.
  - destruct (raised st) as [e|] eqn:E.
    + rewrite (run_files_raised transform err (p :: files) st e E).
      exists [], (p :: files). simpl. rewrite app_nil_r.
      repeat split; try reflexivity; [congruence| |lia].
      intros q. apply eq_sym, after_run_false.
    + rewrite (run_files_cons transform err p files st E).
      destruct (process_file_tree st p) as [H2 [S2 [K2 [C2 _]]]].
      destruct (process_file_block transform err st p)
        as [block [Hb [He _]]].
      destruct (IH (process_file transform err st p))
        as [done [rest [Hf [Hr [Hn [H1 [S1 [K1 C1]]]]]]]].
      exists (p :: done), rest.
      split; [simpl; rewrite Hf; reflexivity|].
      split.
      { rewrite Hr, He, reads_app, (block_reads err p block Hb).
        rewrite <- app_assoc. reflexivity. }
      split; [exact Hn|]. split.
      { intros q. rewrite H1, H2, after_run_twice, is_candidate_cons.
        reflexivity. }
      split; [rewrite S1; exact S2|]. split; [rewrite K1; exact K2|].
      intros Hnd. apply NoDup_cons_iff in Hnd as [Hp Hnd].
      rewrite (C1 Hnd), C2.
      assert (Ef : filter (needs_fix transform
                             (disk (st_world (process_file transform err st p))))
                     done
                   = filter (needs_fix transform (disk (st_world st))) done).
      { apply filter_ext_in. intros q Hq. unfold needs_fix. rewrite H2.
        destruct (path_eq_dec q p) as [->|_].
        - exfalso. apply Hp. rewrite Hf. apply in_or_app. left. exact Hq.
        - rewrite after_run_false. reflexivity. }
      rewrite Ef. simpl.
      destruct (needs_fix transform (disk (st_world st)) p); simpl; lia.
Qed.

(** The end of [main] changes neither the disk nor the files read. *)
Lemma main_world (m : machine) :
  let st := run_files transform err (ts_files m)
              {| st_world := m; fixed_count := 0; events := [];
                 raised := None |} in
  st_world (main transform err m) = st_world st
  /\ reads (events (main transform err m)) = reads (events st).
Proof.
  intros st. split.
  - unfold main. fold st. destruct (raised st); [reflexivity|].
    destruct (uncaught_fst (print st Stdout (FixedFiles (fixed_count st))))
      as [-> _].
    exact (proj1 (print_machine st Stdout (FixedFiles (fixed_count st)))).
  - destruct (main_end transform err m) as [_ [[_ [_ He]]|[_ He]]];
      cbv zeta in He; fold st in He; rewrite He; [|reflexivity].
    rewrite reads_app. simpl. apply app_nil_r.
Qed.

(** A run on a disk. *)
Lemma main_tree (m : machine) :
  exists rest,
    ts_files m = reads (events (main transform err m)) ++ rest
    /\ (raised (main transform err m) = None -> rest = [])
    /\ (forall q,
          stat (disk (st_world (main transform err m))) q
          = after_run transform
              (is_candidate (reads (events (main transform err m))) q)
              (stat (disk m) q))
    /\ shape (disk (st_world (main transform err m))) = shape (disk m)
    /\ console (st_world (main transform err m)) = console m
    /\ (NoDup (ts_files m) ->
        fixed_count (main transform err m)
        = List.length
            (filter (needs_fix transform (disk m))
               (reads (events (main transform err m))))).
Proof.
  destruct (main_world m) as [Hw Hr]. cbv zeta in Hw, Hr.
  destruct (main_end transform err m) as [Hc Hcases]. cbv zeta in Hc, Hcases.
  destruct (run_files_tree (ts_files m)
              {| st_world := m; fixed_count := 0; events := [];
                 raised := None |})
    as [done [rest [Hf [Hd [Hn [H1 [S1 [K1 C1]]]]]]]].
  cbn [st_world fixed_count events] in Hd, H1, S1, K1, C1.
  change (reads [] ++ done) with done in Hd.
  rewrite Hw, Hr, Hc, Hd. exists rest.
  split; [exact Hf|]. split.
  { intros Hnone. apply Hn.
    destruct Hcases as [[_ [H _]]|[[e H] _]]; [exact H | congruence]. }
  split; [exact H1|]. split; [exact S1|]. split; [exact K1 | exact C1].
Qed.



End RunOnTree.

Lemma ts_transform_twice (w : char -> bool) (s : str) :
  FixTs4111.transform w (FixTs4111.transform w s) = FixTs4111.transform w s.
Proof.
  apply transform_fixpoint.
  - rewrite transform_steps.
    apply apply_names_env_clean; [exact targets_good_names|].
    apply clean_env_env.
  - intros k Hk. rewrite transform_steps.
    apply apply_names_removes; [exact targets_good_names | exact Hk].
Qed.

Lemma env_transform_twice (w : char -> bool) (s : str) :
  FixProcessEnv.transform w (FixProcessEnv.transform w s)
  = FixProcessEnv.transform w s.
Proof.
  unfold FixProcessEnv.transform. rewrite !fix_process_env_callable.
  apply rewrite_id. apply clean_env_env.
Qed.




(** * No candidate twice *)

Lemma find_entry_In (name : string) (entries : list (string * node))
    (child : node) :
  find_entry name entries = Some child -> In (name, child) entries.
Proof.
  induction entries as [|[k n] rest IH]; [discriminate|].
  simpl. destruct (String.eqb_spec k name) as [->|_].
  - intros H. injection H as ->. left. reflexivity.
  - intros H. right. exact (IH H).
Qed.

Lemma lookup_unique_names : forall p t d,
  unique_names t -> lookup t p = Some d -> unique_names d.
Proof.
  induction p as [|name p IH]; intros t d Ht H.
  - injection H as <-. exact Ht.
  - destruct t as [x ro|es]; [discriminate|]. simpl in H.
    destruct (find_entry name es) as [child|] eqn:Hf; [|discriminate].
    apply (IH child d); [|exact H].
    inversion Ht as [|es0 _ Hall]; subst.
    rewrite Forall_forall in Hall.
    exact (Hall (name, child) (find_entry_In _ _ _ Hf)).
Qed.

Lemma walk_below (pat : string) (n : node) (here p : path) :
  In p (walk pat here n) -> exists rel name, p = here ++ rel ++ [name].
Proof.
  intros H. apply walk_spec in H as [rel [name [n' [-> _]]]].
  exists rel, name. reflexivity.
Qed.

Lemma walk_NoDup (pat : string) : forall n,
  unique_names n -> forall here, NoDup (walk pat here n).
Proof.
  induction n as [text readonly|entries IH] using node_induction;
    intros Hu here; [constructor|].
  inversion Hu as [|es Hnames Hall]; subst. simpl.
  apply NoDup_app.
  - clear IH Hall Hu.
    induction entries as [|[k n] rest IHr]; [constructor|].
    simpl in Hnames. apply NoDup_cons_iff in Hnames as [Hk Hrest].
    simpl. destruct (fnmatch pat k); [|exact (IHr Hrest)].
    simpl. constructor; [|exact (IHr Hrest)].
    intros Hin. apply in_map_iff in Hin as [[k' n'] [Heq Hin]].
    simpl in Heq. apply app_inv_head in Heq. injection Heq as ->.
    apply filter_In in Hin as [Hin _].
    apply Hk. apply in_map_iff. exists (k, n'). auto.
  - clear Hu.
    induction entries as [|[k n] rest IHr]; [constructor|].
    simpl in Hnames. apply NoDup_cons_iff in Hnames as [Hk Hrest].
    inversion IH as [|e0 l0 IHn IHrest]; subst.
    inversion Hall as [|e1 l1 Hn Hall']; subst.
    simpl. apply NoDup_app.
    + apply IHn. exact Hn.
    + exact (IHr IHrest Hrest Hall').
    + intros p Hp Hq.
      apply walk_below in Hp as [rel [name ->]].
      apply in_flat_map in Hq as [[k' n'] [Hin Hq]].
      apply walk_below in Hq as [rel' [name' Heq]]. simpl in Heq.
      rewrite <- !app_assoc in Heq. apply app_inv_head in Heq.
      injection Heq as -> _.
      apply Hk. apply in_map_iff. exists (k', n'). auto.
  - intros p Hp Hq.
    apply in_map_iff in Hp as [[k n] [<- _]].
    apply in_flat_map in Hq as [[k' n'] [_ Hq]].
    apply walk_below in Hq as [rel [name Heq]]. simpl in Heq.
    rewrite <- app_assoc in Heq. apply app_inv_head in Heq.
    injection Heq as _ Heq. destruct rel; discriminate.
Qed.

Lemma tree_rglob_NoDup (t : node) (root : path) (pat : string) :
  unique_names t -> NoDup (tree_rglob t root pat).
Proof.
  intros Hu. unfold tree_rglob.
  destruct (lookup t root) as [d|] eqn:E; [|constructor].
  apply walk_NoDup. exact (lookup_unique_names _ _ _ Hu E).
Qed.

Lemma suffix_ts_tsx (a b : string) :
  (a ++ ".ts")%string = (b ++ ".tsx")%string -> False.
Proof.
  intros H. apply (f_equal list_ascii_of_string) in H.
  rewrite !list_ascii_of_string_app in H.
  change (list_ascii_of_string ".ts") with ([".";"t"] ++ ["s"])%char in H.
  change (list_ascii_of_string ".tsx") with ([".";"t";"s"] ++ ["x"])%char in H.
  rewrite !app_assoc in H. apply app_inj_tail in H as [_ H]. discriminate H.
Qed.

Lemma ts_files_NoDup (t : node) :
  unique_names t -> NoDup (ts_files t).
Proof.
  intros Hu. unfold ts_files. cbn [rglob tree_fs].
  apply NoDup_app; [apply NoDup_app; [apply NoDup_app| |] | |].
  - apply tree_rglob_NoDup. exact Hu.
  - apply tree_rglob_NoDup. exact Hu.
  - intros p H1 H2.
    apply tree_rglob_spec in H1 as [d [rel [name [n' [_ [-> [_ M1]]]]]]].
    apply tree_rglob_spec in H2 as [d' [rel' [name' [n'' [_ [Heq [_ M2]]]]]]].
    apply app_inv_head in Heq. apply app_inj_tail in Heq as [_ ->].
    apply (fnmatch_suffix ".ts") in M1 as [a Ha]; [|reflexivity].
    apply (fnmatch_suffix ".tsx") in M2 as [b Hb]; [|reflexivity].
    rewrite Ha in Hb. exact (suffix_ts_tsx _ _ Hb).
  - apply tree_rglob_NoDup. exact Hu.
  - intros p H1 H2.
    apply tree_rglob_spec in H2 as [d' [rel' [name' [n'' [_ [-> _]]]]]].
    apply in_app_or in H1 as [H1|H1];
      apply tree_rglob_spec in H1 as [d [rel [name [n' [_ [Heq _]]]]]];
      discriminate Heq.
  - repeat constructor. intros [].
  - intros p H1 [<-|[]].
    apply in_app_or in H1 as [H1|H1];
      [apply in_app_or in H1 as [H1|H1]|];
      apply tree_rglob_spec in H1 as [d [rel [name [n' [_ [Heq _]]]]]];
      destruct rel; discriminate Heq.
Qed.

(** X10. In a tree where no directory lists a name twice, no candidate
    is listed twice: the three enumerations and [next.config.ts] do not
    overlap, so a run processes every file once. *)
Theorem candidates_distinct (t : node) :
  unique_names t -> NoDup (ts_files t).
Proof. exact (ts_files_NoDup t). Qed.

Lemma demo_unique_names : unique_names demo.
Proof.
  repeat (first [ apply unique_file
                | apply unique_dir
                | apply Forall_cons
                | apply Forall_nil
                | apply NoDup_cons
                | apply NoDup_nil
                | (simpl; intuition discriminate) ]).
Qed.

Lemma candidates_distinct_witness :
  unique_names demo /\ NoDup (ts_files demo).
Proof.
  split; [exact demo_unique_names|].
  exact (candidates_distinct demo demo_unique_names).
Defined.

(** * The count on a directory tree *)

Lemma str_eqb_sym (a b : str) : str_eqb a b = str_eqb b a.
Proof.
  destruct (str_eqb a b) eqn:E.
  - apply str_eqb_eq in E. subst. symmetry. apply str_eqb_refl.
  - destruct (str_eqb b a) eqn:E'; [|reflexivity].
    apply str_eqb_eq in E'. subst. rewrite str_eqb_refl in E. discriminate E.
Qed.

(** A file that a run has processed reads differently afterwards exactly
    when it needed a fix. *)
Lemma changed_needs_fix (transform : str -> str) (t t' : node) (q : path) :
  stat t' q = after_run transform true (stat t q) ->
  changed_on_disk t t' q = needs_fix transform t q.
Proof.
  intros H. unfold changed_on_disk, needs_fix.
  rewrite !read_text_stat, H.
  destruct (stat t q) as [[[[e|c] [e'|]]|]|]; simpl;
    rewrite ?String.eqb_refl, ?str_eqb_refl; try reflexivity.
  rewrite str_eqb_sym. reflexivity.
Qed.

Section CountOnTree.

Variable transform : str -> str.
Hypothesis transform_twice : forall s, transform (transform s) = transform s.
Variable err : stream.

(** The counter of a run on a disk where no directory lists a name
    twice: the number of the files read that needed a fix, which are the
    files read whose text on the disk has changed. *)
Lemma main_count (m : machine) :
  unique_names (disk m) ->
  fixed_count (main transform err m)
  = List.length
      (filter (needs_fix transform (disk m))
         (reads (events (main transform err m))))
  /\ fixed_count (main transform err m)
     = List.length
         (filter (changed_on_disk (disk m)
                    (disk (st_world (main transform err m))))
            (reads (events (main transform err m))))
  /\ (raised (main transform err m) = None ->
      reads (events (main transform err m)) = ts_files m).
Proof.
  intros Hu.
  destruct (main_tree transform transform_twice err m)
    as [rest [Hf [Hn [Hstat [_ [_ Hc]]]]]].
  assert (Hc' := Hc (ts_files_NoDup (disk m) Hu)).
  split; [exact Hc'|]. split.
  - rewrite Hc'. f_equal. apply filter_ext_in. intros q Hq.
    symmetry. apply changed_needs_fix. rewrite Hstat.
    unfold is_candidate.
    destruct (in_dec path_eq_dec q (reads (events (main transform err m))));
      [reflexivity | contradiction].
  - intros Hnone. rewrite (Hn Hnone), app_nil_r in Hf. symmetry. exact Hf.
Qed.

End CountOnTree.

(** X11. On a tree where no directory lists a name twice, the counter
    at the end of a run is exactly the number of files the run has read
    that can be read and written and whose text the rules change; when no
    exception has left the run, these are all such candidates. *)
Theorem count_exact (unicode_alnum : char -> bool) (m : machine) :
  unique_names (disk m) ->
  (let final := FixTs4111Main.main unicode_alnum m in
   fixed_count final
   = List.length
       (filter (needs_fix (FixTs4111.transform unicode_alnum) (disk m))
          (reads (events final)))
   /\ (raised final = None ->
       fixed_count final
       = List.length
           (filter (needs_fix (FixTs4111.transform unicode_alnum) (disk m))
              (ts_files m))))
  /\ (let final := FixProcessEnvMain.main unicode_alnum m in
      fixed_count final
      = List.length
          (filter (needs_fix (FixProcessEnv.transform unicode_alnum) (disk m))
             (reads (events final)))
      /\ (raised final = None ->
          fixed_count final
          = List.length
              (filter
                 (needs_fix (FixProcessEnv.transform unicode_alnum) (disk m))
                 (ts_files m)))).
Proof.
  intros Hu. split; cbv zeta.
  - destruct (main_count (FixTs4111.transform unicode_alnum)
                (ts_transform_twice unicode_alnum) Stderr m Hu)
      as [H1 [_ H3]].
    split; [exact H1|]. intros Hnone.
    rewrite <- (H3 Hnone). exact H1.
  - destruct (main_count (FixProcessEnv.transform unicode_alnum)
                (env_transform_twice unicode_alnum) Stdout m Hu)
      as [H1 [_ H3]].
    split; [exact H1|]. intros Hnone.
    rewrite <- (H3 Hnone). exact H1.
Qed.

Lemma count_exact_witness :
  let m := {| disk := demo; console := strict_stdout |} in
  unique_names (disk m)
  /\ fixed_count (FixTs4111Main.main ascii_only m)
     = List.length
         (filter (needs_fix (FixTs4111.transform ascii_only) (disk m))
            (reads (events (FixTs4111Main.main ascii_only m)))).
Proof.
  intros m. split; [exact demo_unique_names|].
  exact (proj1 (proj1 (count_exact ascii_only m demo_unique_names))).
Defined.

(** ** The comparison, the write and the counter *)

Section WriteAndCount.

Context {world : Type} {os : OS world}.
Variable transform : str -> str.
Variable err : stream.


End WriteAndCount.



(** * The order of the property rules *)

Section RuleOrder.

Variable w : char -> bool.

Lemma prop_step_word_head (j : str) (c : char) (t : str) :
  Re.ascii_word c = true -> prop_step w j (c :: t) = None.
Proof.
  intros Hc. unfold prop_step. simpl.
  destruct (N.eqb_spec c (ch ".")) as [->|_]; [discriminate Hc | reflexivity].
Qed.

Lemma rewrite_through_name (j : str) (rest : str) : forall name,
  forallb Re.ascii_word name = true ->
  rewrite (prop_step w j) (name ++ rest)
  = name ++ rewrite (prop_step w j) rest.
Proof.
  induction name as [|c name IH]; intros H; [reflexivity|].
  simpl in H. apply andb_true_iff in H as [Hc H].
  simpl app. rewrite rewrite_cons, prop_step_word_head by exact Hc.
  rewrite IH by exact H. reflexivity.
Qed.

Lemma after_name_kept (j rest : str) :
  after_name w rest = true ->
  after_name w (rewrite (prop_step w j) rest) = true.
Proof.
  destruct rest as [|c rest]; [reflexivity|].
  rewrite rewrite_cons.
  destruct (prop_step w j (c :: rest)) as [[n r]|] eqn:E;
    [|exact (fun H => H)].
  intros _. destruct (prop_step_Some _ _ _ _ _ E) as [_ [_ [_ [_ ->]]]].
  reflexivity.
Qed.

Lemma prop_quiet_in_replacement (j k : str) :
  good_name j = true -> good_name k = true ->
  forall u p z, prop_replacement j = u ++ p -> p <> [] ->
                prop_step w k (p ++ z) = None.
Proof.
  intros Hj Hk u p z Hr Hp.
  destruct (prop_step w k (p ++ z)) as [[n r]|] eqn:E; [exfalso|reflexivity].
  destruct (prop_step_Some _ _ _ _ _ E) as [rest [Hs _]].
  apply (prop_inside j (ch "." :: k) Hj) with (u := u) (v := p) (z := z)
    (rest := rest); auto.
  - left; reflexivity.
  - intros [C|C]; [discriminate C|].
    revert C. apply good_name_not; [exact Hk | reflexivity].
  - rewrite Hs. apply (strip_app (ch "." :: k) rest).
Qed.

Lemma rewrite_past_replacement (j k : str) (X : str) :
  good_name j = true -> good_name k = true ->
  rewrite (prop_step w k) (prop_replacement j ++ X)
  = prop_replacement j ++ rewrite (prop_step w k) X.
Proof.
  intros Hj Hk.
  rewrite rewrite_app_local.
  - f_equal. apply rewrite_id. apply occurs_suffixes.
    intros u p Hr. unfold fires. destruct p as [|c p]; [reflexivity|].
    rewrite <- (app_nil_r (c :: p)).
    rewrite (prop_quiet_in_replacement j k Hj Hk u (c :: p) [] Hr)
      by discriminate.
    reflexivity.
  - apply prop_step_length.
  - intros u p Hr Hp.
    rewrite (prop_quiet_in_replacement j k Hj Hk u p X Hr Hp).
    rewrite <- (app_nil_r p) at 1.
    rewrite (prop_quiet_in_replacement j k Hj Hk u p [] Hr Hp). reflexivity.
Qed.

(** Two property rules, one after the other, are one pass of both. *)
Lemma rewrite_merge (j k : str) :
  good_name j = true -> good_name k = true ->
  forall s,
    rewrite (prop_step w k) (rewrite (prop_step w j) s)
    = rewrite (either (prop_step w j) (prop_step w k)) s.
Proof.
  intros Hj Hk s.
  induction s as [s IH] using (well_founded_induction
    (well_founded_ltof _ (@List.length char))).
  unfold ltof in IH. destruct s as [|c t]; [reflexivity|].
  rewrite (rewrite_cons (either _ _)). unfold either.
  rewrite (rewrite_cons (prop_step w j)).
  destruct (prop_step w j (c :: t)) as [[n r]|] eqn:Ej.
  - destruct (prop_step_Some _ _ _ _ _ Ej) as [rest [_ [_ [_ ->]]]].
    rewrite rewrite_past_replacement by assumption.
    rewrite IH; [reflexivity|].
    rewrite length_skipn. simpl. lia.
  - destruct (prop_step w k (c :: t)) as [[n r]|] eqn:Ek.
    + destruct (prop_step_Some _ _ _ _ _ Ek) as [rest [Hs [A [-> ->]]]].
      injection Hs as -> ->.
      rewrite rewrite_through_name by (apply good_name_word; exact Hk).
      rewrite rewrite_cons.
      rewrite prop_step_intro by (apply after_name_kept; exact A).
      rewrite !skipn_app_exact.
      rewrite IH; [reflexivity|].
      simpl. rewrite length_app. lia.
    + rewrite rewrite_cons.
      destruct (prop_step w k (c :: rewrite (prop_step w j) t))
        as [[n r]|] eqn:E.
      * exfalso.
        assert (F : fires (prop_step w k) (rewrite (prop_step w j) (c :: t))
                    = true).
        { rewrite rewrite_cons, Ej. unfold fires. rewrite E. reflexivity. }
        apply head_prop_prop in F; [|assumption|assumption].
        unfold fires in F. rewrite Ek in F. discriminate F.
      * rewrite IH; [reflexivity | simpl; lia].
Qed.

(** At most one property rule applies at a position. *)
Lemma prop_steps_exclusive (j k : str) (s : str) r1 r2 :
  good_name j = true -> good_name k = true ->
  prop_step w j s = Some r1 -> prop_step w k s = Some r2 -> j = k.
Proof.
  intros Hj Hk E1 E2. destruct r1 as [n1 r1], r2 as [n2 r2].
  destruct (prop_step_Some _ _ _ _ _ E1) as [rest1 [-> [A1 _]]].
  destruct (prop_step_Some _ _ _ _ _ E2) as [rest2 [Hs [A2 _]]].
  injection Hs as Hs.
  apply app_eq_app in Hs as [l [[-> Hl]|[-> Hl]]].
  - destruct l as [|a l]; [apply app_nil_r|]. exfalso.
    subst rest2. simpl in A2.
    assert (Ha : Re.ascii_word a = true).
    { apply (forallb_In _ _ _ (good_name_word _ Hj)).
      apply in_or_app. right. left. reflexivity. }
    rewrite (ascii_word_is_word w a Ha) in A2. discriminate A2.
  - destruct l as [|a l]; [symmetry; apply app_nil_r|]. exfalso.
    subst rest1. simpl in A1.
    assert (Ha : Re.ascii_word a = true).
    { apply (forallb_In _ _ _ (good_name_word _ Hk)).
      apply in_or_app. right. left. reflexivity. }
    rewrite (ascii_word_is_word w a Ha) in A1. discriminate A1.
Qed.

Lemma rewrite_commute (j k : str) (s : str) :
  good_name j = true -> good_name k = true ->
  rewrite (prop_step w k) (rewrite (prop_step w j) s)
  = rewrite (prop_step w j) (rewrite (prop_step w k) s).
Proof.
  intros Hj Hk. rewrite !rewrite_merge by assumption.
  apply rewrite_ext. intros t. unfold either.
  destruct (prop_step w j t) as [r1|] eqn:E1;
    destruct (prop_step w k t) as [r2|] eqn:E2; try reflexivity.
  pose proof (prop_steps_exclusive j k t r1 r2 Hj Hk E1 E2) as ->.
  congruence.
Qed.

Lemma apply_names_permutation (names names' : list str) :
  Permutation names names' ->
  forallb good_name names = true ->
  forall s, apply_names w names s = apply_names w names' s.
Proof.
  unfold apply_names.
  induction 1 as [|k l l' HP IH|j k l|l l' l'' HP1 IH1 HP2 IH2];
    intros Hg s.
  - reflexivity.
  - simpl in Hg. apply andb_true_iff in Hg as [_ Hg]. simpl.
    apply IH. exact Hg.
  - simpl in Hg. apply andb_true_iff in Hg as [Hk Hg].
    apply andb_true_iff in Hg as [Hj _].
    simpl. rewrite (rewrite_commute j k s Hj Hk). reflexivity.
  - rewrite IH1 by exact Hg. apply IH2.
    apply forallb_forall. intros x Hx.
    apply (forallb_In _ _ _ Hg).
    apply Permutation_in with (l := l'); [apply Permutation_sym|]; assumption.
Qed.

End RuleOrder.

(** X12. The order of the rules of [fix-ts4111.py] does not matter: any
    reordering of the pattern list gives the same result on every
    text. *)
Theorem rule_order_irrelevant (unicode_alnum : char -> bool)
    (reordered : list (Re.pattern * Re.repl)) (s : str) :
  Permutation FixTs4111.patterns reordered ->
  FixTs4111.fix_object_property_access unicode_alnum s reordered
  = FixTs4111.fix_object_property_access unicode_alnum s FixTs4111.patterns.
Proof.
  intros HP. rewrite patterns_eq in *.
  apply Permutation_sym, Permutation_map_inv in HP as [names' [-> HP]].
  assert (Hg : forallb (fun n => good_name (py n)) names' = true).
  { apply forallb_forall. intros n Hn.
    apply (forallb_In _ _ _ targets_good).
    apply Permutation_in with (l := names');
      [apply Permutation_sym|]; assumption. }
  rewrite !fix_object_property_access_names by (exact Hg || exact targets_good).
  symmetry. apply apply_names_permutation.
  - apply Permutation_map. exact HP.
  - exact targets_good_names.
Qed.

Lemma rule_order_irrelevant_witness :
  Permutation FixTs4111.patterns (rev FixTs4111.patterns)
  /\ FixTs4111.fix_object_property_access ascii_only (py "a.name.q")
       (rev FixTs4111.patterns)
     = FixTs4111.fix_object_property_access ascii_only (py "a.name.q")
         FixTs4111.patterns.
Proof.
  assert (H : Permutation FixTs4111.patterns (rev FixTs4111.patterns))
    by apply Permutation_rev.
  split; [exact H|].
  exact (rule_order_irrelevant ascii_only (rev FixTs4111.patterns)
           (py "a.name.q") H).
Defined.
